(** * SQL text utilities of the OGR SQLite driver

    Shallow embedding of [SQLUnescape], [SQLEscapeLiteral], [SQLEscapeName]
    and [SQLTokenize] from [ogr/ogrsf_frmts/sqlite/ogrsqliteutility.cpp],
    with the properties their specification states.

    A [const char*] argument is modelled by the bytes the pointer points at:
    a [string] that is followed in memory by the terminating NUL.  A read at
    the end of the [string] yields NUL, and every loop stops at the first
    NUL it meets, as the C loops do.  A [CPLString] is a [string];
    [os += c] appends [c] at its end. *)

From Stdlib Require Import Strings.String Strings.Ascii Lists.List Bool.Bool.
From Stdlib Require Import ZArith Lia.
Import ListNotations.
Open Scope char_scope.
Open Scope string_scope.

(** ** Characters and C strings *)

Definition NUL : ascii := "000".
Definition SQUOTE : ascii := "'".
Definition DQUOTE : ascii := "034".
Definition SPACE : ascii := " ".
Definition LPAREN : ascii := "(".
Definition RPAREN : ascii := ")".
Definition COMMA : ascii := ",".

(** [p[0]]: the byte under the pointer, NUL at the terminator. *)
Definition peek (p : string) : ascii :=
  match p with
  | EmptyString => NUL
  | String c _ => c
  end.

(** The text a C function sees behind a pointer: the bytes before the
    first NUL.  This is also the conversion [const char*] to [CPLString]. *)
Fixpoint c_str (p : string) : string :=
  match p with
  | EmptyString => EmptyString
  | String c rest => if Ascii.eqb c NUL then EmptyString else String c (c_str rest)
  end.

(** A text without an embedded NUL: what a C string can hold. *)
Fixpoint nul_free (s : string) : bool :=
  match s with
  | EmptyString => true
  | String c rest => negb (Ascii.eqb c NUL) && nul_free rest
  end.

(** [os += c] *)
Definition push_back (os : string) (c : ascii) : string :=
  (os ++ String c EmptyString)%string.

Definition is_quote (c : ascii) : bool :=
  Ascii.eqb c SQUOTE || Ascii.eqb c DQUOTE.

Definition is_punct (c : ascii) : bool :=
  Ascii.eqb c LPAREN || Ascii.eqb c RPAREN || Ascii.eqb c COMMA.

(** ** SQLUnescape *)

(** The [while] loop of [SQLUnescape]: [p] is [pszVal], [osRet] the result
    built so far. *)
Fixpoint SQLUnescape_loop (chQuoteChar : ascii) (p : string) (osRet : string)
  : string :=
  match p with
  | EmptyString => osRet
  | String c rest =>
      if Ascii.eqb c NUL then osRet
      else if Ascii.eqb c chQuoteChar then
        if Ascii.eqb (peek rest) chQuoteChar then
          (* pszVal ++; osRet += *pszVal; pszVal ++ *)
          match rest with
          | EmptyString => osRet
          | String c' rest' =>
              SQLUnescape_loop chQuoteChar rest' (push_back osRet c')
          end
        else osRet (* break *)
      else SQLUnescape_loop chQuoteChar rest (push_back osRet c)
  end.

Definition SQLUnescape (pszVal : string) : string :=
  let chQuoteChar := peek pszVal in
  if negb (Ascii.eqb chQuoteChar SQUOTE) && negb (Ascii.eqb chQuoteChar DQUOTE)
  then c_str pszVal
  else
    match pszVal with
    | EmptyString => EmptyString
    | String _ rest => SQLUnescape_loop chQuoteChar rest EmptyString
    end.

(** ** SQLEscapeLiteral and SQLEscapeName *)

Fixpoint SQLEscapeLiteral_loop (p : string) (osVal : string) : string :=
  match p with
  | EmptyString => osVal
  | String c rest =>
      if Ascii.eqb c NUL then osVal
      else
        let osVal1 := if Ascii.eqb c SQUOTE then push_back osVal SQUOTE
                      else osVal in
        SQLEscapeLiteral_loop rest (push_back osVal1 c)
  end.

Definition SQLEscapeLiteral (pszLiteral : string) : string :=
  SQLEscapeLiteral_loop pszLiteral EmptyString.

Fixpoint SQLEscapeName_loop (p : string) (osRet : string) : string :=
  match p with
  | EmptyString => osRet
  | String c rest =>
      if Ascii.eqb c NUL then osRet
      else if Ascii.eqb c DQUOTE
      then SQLEscapeName_loop rest (osRet ++ String DQUOTE (String DQUOTE EmptyString))%string
      else SQLEscapeName_loop rest (push_back osRet c)
  end.

Definition SQLEscapeName (pszName : string) : string :=
  SQLEscapeName_loop pszName EmptyString.

(** ** SQLTokenize *)

(** Modelled from the spec: [CSLAddString] is declared in [cpl_string.h] and
    defined outside this file; a flush "appends the token to the output", so
    the string list is a [list string] and the call appends at its end.  The
    null pointer that stands for the empty list is [[]]. *)
Definition CSLAddString (papszStrList : list string) (pszNewString : string)
  : list string :=
  papszStrList ++ [pszNewString].

(** The local variables of [SQLTokenize]. *)
Record scan_state : Type := mkScan {
  papszTokens : list string;
  bInQuote : bool;
  chQuoteChar : ascii;
  bInSpace : bool;
  osCurrentToken : string
}.

Definition scan_init : scan_state :=
  mkScan [] false NUL true EmptyString.

(** How far [pszStr] moves at the end of one iteration: the common
    [pszStr ++] or the [pszStr += 2; continue] of a doubled quote. *)
Inductive advance : Type := ByOne | ByTwo.

(** The [if( !bInSpace )] flush shared by the space and punctuation
    branches: returns the token list and the cleared accumulator. *)
Definition flush_unless_space (st : scan_state) : list string * string :=
  if negb (bInSpace st)
  then (CSLAddString (papszTokens st) (osCurrentToken st), EmptyString)
  else (papszTokens st, osCurrentToken st).

(** One iteration of the [while] loop: [c] is [*pszStr] (not NUL), [next]
    is [pszStr[1]]. *)
Definition scan_step (st : scan_state) (c next : ascii)
  : scan_state * advance :=
  if Ascii.eqb c SPACE && negb (bInQuote st) then
    let '(toks, cur) := flush_unless_space st in
    (mkScan toks (bInQuote st) (chQuoteChar st) true cur, ByOne)
  else if is_punct c && negb (bInQuote st) then
    let '(toks, _) := flush_unless_space st in
    let cur := push_back EmptyString c in
    (mkScan (CSLAddString toks cur) (bInQuote st) (chQuoteChar st) true
            EmptyString, ByOne)
  else if Ascii.eqb c DQUOTE || Ascii.eqb c SQUOTE then
    if bInQuote st && Ascii.eqb c (chQuoteChar st)
       && Ascii.eqb next (chQuoteChar st) then
      (mkScan (papszTokens st) (bInQuote st) (chQuoteChar st) (bInSpace st)
              (push_back (push_back (osCurrentToken st) c) c), ByTwo)
    else if bInQuote st && Ascii.eqb c (chQuoteChar st) then
      let cur := push_back (osCurrentToken st) c in
      (mkScan (CSLAddString (papszTokens st) cur) false NUL true EmptyString,
       ByOne)
    else if bInQuote st then
      (mkScan (papszTokens st) (bInQuote st) (chQuoteChar st) (bInSpace st)
              (push_back (osCurrentToken st) c), ByOne)
    else
      (mkScan (papszTokens st) true c false (push_back EmptyString c), ByOne)
  else
    (mkScan (papszTokens st) (bInQuote st) (chQuoteChar st) false
            (push_back (osCurrentToken st) c), ByOne).

(** The [while( *pszStr != '\0' )] loop. *)
Fixpoint scan_loop (st : scan_state) (p : string) : scan_state :=
  match p with
  | EmptyString => st
  | String c rest =>
      if Ascii.eqb c NUL then st
      else
        match scan_step st c (peek rest) with
        | (st', ByOne) => scan_loop st' rest
        | (st', ByTwo) =>
            match rest with
            | EmptyString => st'
            | String _ rest' => scan_loop st' rest'
            end
        end
  end.

(** The code after the loop: a non-empty accumulator is the last token. *)
Definition scan_finish (st : scan_state) : list string :=
  match osCurrentToken st with
  | EmptyString => papszTokens st
  | _ => CSLAddString (papszTokens st) (osCurrentToken st)
  end.

Definition SQLTokenize (pszStr : string) : list string :=
  scan_finish (scan_loop scan_init pszStr).

(** ** The behaviour the specification describes *)

(** The escapers in the specification's words: every occurrence of the
    quote character [q] is emitted twice, every other character once. *)
Fixpoint double_char (q : ascii) (raw : string) : string :=
  match raw with
  | EmptyString => EmptyString
  | String c rest =>
      if Ascii.eqb c q then String c (String c (double_char q rest))
      else String c (double_char q rest)
  end.

(** The unescaper in the specification's words, on the text after the
    opening quote [q]: a doubled [q] yields one [q], an undoubled [q] ends
    the scan and is not emitted, any other character is emitted, and the end
    of the text ends the scan. *)
Fixpoint collapse (q : ascii) (body : string) : string :=
  match body with
  | EmptyString => EmptyString
  | String c rest =>
      if Ascii.eqb c q then
        match rest with
        | String c' rest' =>
            if Ascii.eqb c' q then String q (collapse q rest')
            else EmptyString
        | EmptyString => EmptyString
        end
      else String c (collapse q rest)
  end.

(** The content of a quoted span that has not been closed: read left to
    right, every [q] in it is immediately followed by a second [q]. *)
Fixpoint unclosed (q : ascii) (body : string) : bool :=
  match body with
  | EmptyString => true
  | String c rest =>
      if Ascii.eqb c q then
        match rest with
        | String c' rest' => Ascii.eqb c' q && unclosed q rest'
        | EmptyString => false
        end
      else unclosed q rest
  end.

Definition is_empty (s : string) : bool :=
  match s with
  | EmptyString => true
  | String _ _ => false
  end.

(** The token that consists of the one character [c]. *)
Definition char_token (c : ascii) : string := String c EmptyString.

(** A text made of punctuation and space characters only. *)
Fixpoint only_punct_space (s : string) : bool :=
  match s with
  | EmptyString => true
  | String c rest =>
      (is_punct c || Ascii.eqb c SPACE) && only_punct_space rest
  end.

(** "Every character becomes its own single-character token". *)
Definition each_char_own_token (s : string) : Prop :=
  SQLTokenize s = map char_token (list_ascii_of_string s).

(** The same for the punctuation characters alone, spaces giving nothing. *)
Definition punct_tokens (s : string) : list string :=
  map char_token
      (filter (fun c => negb (Ascii.eqb c SPACE)) (list_ascii_of_string s)).

(** What holds of the local variables at the head of every iteration of
    the loop of [SQLTokenize]: no stored token is empty, [bInSpace] says
    that the accumulator is empty, and inside a quoted span the accumulator
    is the opening quote followed by an unclosed content. *)
Definition scan_wf (st : scan_state) : bool :=
  forallb (fun t => negb (is_empty t)) (papszTokens st)
  && Bool.eqb (bInSpace st) (is_empty (osCurrentToken st))
  && (if bInQuote st then
        is_quote (chQuoteChar st)
        && match osCurrentToken st with
           | EmptyString => false
           | String c body =>
               Ascii.eqb c (chQuoteChar st) && unclosed (chQuoteChar st) body
           end
      else true).

(** The states the loop of [SQLTokenize] can be in. *)
Inductive reachable : scan_state -> Prop :=
| reach_init : reachable scan_init
| reach_step : forall st c next,
    reachable st -> c <> NUL -> reachable (fst (scan_step st c next)).

(** [st] with its accumulator replaced. *)
Definition with_token (st : scan_state) (tok : string) : scan_state :=
  mkScan (papszTokens st) (bInQuote st) (chQuoteChar st) (bInSpace st) tok.

(** ** Notions for the further properties *)

(** The number of occurrences of [q] in [s]. *)
Fixpoint count_char (q : ascii) (s : string) : nat :=
  match s with
  | EmptyString => 0
  | String c rest =>
      if Ascii.eqb c q then S (count_char q rest) else count_char q rest
  end.

(** A character that the loop of [SQLTokenize] treats in its last branch
    whatever the state: not NUL, space, punctuation or a quote. *)
Definition ordinary (c : ascii) : bool :=
  negb (Ascii.eqb c NUL) && negb (Ascii.eqb c SPACE)
  && negb (is_punct c) && negb (is_quote c).

(** A text of ordinary characters only. *)
Fixpoint is_word (s : string) : bool :=
  match s with
  | EmptyString => true
  | String c rest => ordinary c && is_word rest
  end.

(** The content of a quoted span together with its closing quote: read
    left to right, doubled [q]s are passed over, and the first [q] that is
    not doubled is the last character. *)
Fixpoint closes (q : ascii) (r : string) : bool :=
  match r with
  | EmptyString => false
  | String c rest =>
      if Ascii.eqb c q then
        match rest with
        | EmptyString => true
        | String c' rest' => Ascii.eqb c' q && closes q rest'
        end
      else closes q rest
  end.

(** The three kinds of finished token: a quoted span with its closing
    quote, one punctuation character, a non-empty word. *)
Definition complete_token (t : string) : bool :=
  match t with
  | EmptyString => false
  | String c rest =>
      if is_quote c then closes c rest
      else if is_punct c then is_empty rest
      else is_word t
  end.

(** A finished token, or a quoted span that was never closed. *)
Definition token_ok (t : string) : bool :=
  complete_token t
  || match t with
     | EmptyString => false
     | String c rest => is_quote c && unclosed c rest
     end.

(** What the loop of [SQLTokenize] keeps beside [scan_wf]: the stored
    tokens are finished ones, outside a quoted span the accumulator is a
    word and [chQuoteChar] is NUL. *)
Definition scan_kinds (st : scan_state) : bool :=
  forallb complete_token (papszTokens st)
  && (bInQuote st
      || (is_word (osCurrentToken st) && Ascii.eqb (chQuoteChar st) NUL)).

(** [st] with the tokens [pre] put before its own. *)
Definition prepend_tokens (pre : list string) (st : scan_state) : scan_state :=
  mkScan (pre ++ papszTokens st) (bInQuote st) (chQuoteChar st) (bInSpace st)
         (osCurrentToken st).

(** A quoted literal or identifier as a caller builds it: the escaped
    text between two quote characters [q]. *)
Definition quoted (q : ascii) (raw : string) : string :=
  String q (double_char q raw ++ String q EmptyString).

(** ** SQLResult and SQLResultGetValue *)

(** C [int]: 32 bits, two's complement.  Overflow of [int] arithmetic is
    undefined in C; the model wraps around. *)
Definition INT_MIN : Z := - 2 ^ 31.
Definition INT_MAX : Z := 2 ^ 31 - 1.
Definition wrap_int (z : Z) : Z := (z + 2 ^ 31) mod 2 ^ 32 - 2 ^ 31.

(** [struct SQLResult]: [papszResult] is the array filled by
    [sqlite3_get_table]; an entry is a C string or the null pointer. *)
Record SQLResult : Type := mkSQLResult {
  papszResult : list (option string);
  pszErrMsg : option string;
  nRowCount : Z;
  nColCount : Z;
  rc : Z
}.

(** The subscript [nCols + iRowNum * nCols + iColNum]. *)
Definition SQLResultGetValue_index (poResult : SQLResult)
  (iColNum iRowNum : Z) : Z :=
  let nCols := nColCount poResult in
  wrap_int (wrap_int (nCols + wrap_int (iRowNum * nCols)) + iColNum).

(** [SQLResultGetValue]: [None] stands for a read outside the array,
    [Some None] for a null entry. *)
Definition SQLResultGetValue (poResult : SQLResult) (iColNum iRowNum : Z)
  : option (option string) :=
  let i := SQLResultGetValue_index poResult iColNum iRowNum in
  if (i <? 0)%Z then None
  else nth_error (papszResult poResult) (Z.to_nat i).

(** ** SQLGetInteger64 and SQLGetInteger *)

Inductive OGRErr : Type := OGRERR_NONE | OGRERR_FAILURE.

(** The sqlite library as [SQLGetInteger64] sees it in one call: its two
    result codes the function compares with, and what it answers to
    [sqlite3_prepare_v2], [sqlite3_step] and [sqlite3_column_int64]. *)
Record sqlite_answers : Type := mkAnswers {
  SQLITE_OK : Z;
  SQLITE_ROW : Z;
  prepare_rc : Z;
  step_rc : Z;
  column_int64 : Z
}.

(** The calls [SQLGetInteger64] makes, in order: those to the sqlite
    library and the error report. *)
Inductive sqlite_call : Type :=
| sqlite3_prepare_v2
| sqlite3_errmsg
| CPLError
| sqlite3_step
| sqlite3_column_int64
| sqlite3_finalize.

(** [SQLGetInteger64]: the value returned, the code stored through [err]
    when [err] is not null, and the calls made. *)
Definition SQLGetInteger64 (db : sqlite_answers)
  : Z * OGRErr * list sqlite_call :=
  if negb (prepare_rc db =? SQLITE_OK db)%Z then
    (0%Z, OGRERR_FAILURE, [sqlite3_prepare_v2; sqlite3_errmsg; CPLError])
  else if negb (step_rc db =? SQLITE_ROW db)%Z then
    (0%Z, OGRERR_FAILURE, [sqlite3_prepare_v2; sqlite3_step; sqlite3_finalize])
  else
    (column_int64 db, OGRERR_NONE,
     [sqlite3_prepare_v2; sqlite3_step; sqlite3_column_int64;
      sqlite3_finalize]).

(** [SQLGetInteger]: [static_cast<int>] keeps the low 32 bits. *)
Definition SQLGetInteger (db : sqlite_answers)
  : Z * OGRErr * list sqlite_call :=
  let '(i, err, calls) := SQLGetInteger64 db in (wrap_int i, err, calls).

(** No stored token and no accumulated character is NUL. *)
Definition scan_nul_free (st : scan_state) : bool :=
  forallb nul_free (papszTokens st) && nul_free (osCurrentToken st).

(** Reading [p] from the state [st], which is inside a quoted span, never
    leaves that span: all of [p] joins the accumulator. *)
Definition span_continues (st : scan_state) (p : string) : Prop :=
  exists toks q tok,
    st = mkScan toks true q false tok
    /\ unclosed q p = true
    /\ scan_loop st p = mkScan toks true q false (tok ++ p).

(** Reading [p] from the state [st] ends inside a quoted span that is
    opened in [p]: [p] is a part [a] after which the scanner is outside
    every span, the opening quote [q], and a content [body] in which no
    [q] closes the span; the accumulator is [q] followed by [body]. *)
Definition span_opens (st : scan_state) (p : string) : Prop :=
  exists a q body,
    p = a ++ String q body
    /\ bInQuote (scan_loop st a) = false
    /\ is_quote q = true
    /\ unclosed q body = true
    /\ scan_loop st p
       = mkScan (papszTokens (scan_loop st a)) true q false (String q body).

Definition open_span_split (p : string) : Prop :=
  forall st,
    scan_wf st = true -> bInQuote (scan_loop st p) = true ->
    span_continues st p \/ span_opens st p.

(** ** Strings *)

Lemma append_nil_r (s : string) : (s ++ "")%string = s.
Proof. induction s as [|c s IH]; simpl; [reflexivity | now rewrite IH]. Qed.

Lemma append_assoc (a b c : string) :
  ((a ++ b) ++ c)%string = (a ++ (b ++ c))%string.
Proof. induction a as [|x a IH]; simpl; [reflexivity | now rewrite IH]. Qed.

Lemma push_back_append (a b : string) (c : ascii) :
  push_back (a ++ b) c = (a ++ push_back b c)%string.
Proof. unfold push_back. apply append_assoc. Qed.

Lemma is_empty_push_back (s : string) (c : ascii) :
  is_empty (push_back s c) = false.
Proof. destruct s; reflexivity. Qed.

Lemma c_str_nul_free (s : string) : nul_free s = true -> c_str s = s.
Proof.
  induction s as [|c s IH]; simpl; [reflexivity|].
  destruct (Ascii.eqb c NUL); simpl; [discriminate|].
  intros H. now rewrite IH.
Qed.

Lemma c_str_is_nul_free (s : string) : nul_free (c_str s) = true.
Proof.
  induction s as [|c s IH]; simpl; [reflexivity|].
  destruct (Ascii.eqb c NUL) eqn:E; simpl; [reflexivity|].
  now rewrite E, IH.
Qed.

(** Induction over a text two characters at a time, as the loops that
    look one character ahead walk it. *)
Lemma string_ind2 (P : string -> Prop) :
  P EmptyString ->
  (forall c, P (String c EmptyString)) ->
  (forall c1 c2 s, P s -> P (String c2 s) -> P (String c1 (String c2 s))) ->
  forall s, P s.
Proof.
  intros H0 H1 H2 s.
  assert (H : P s /\ forall c, P (String c s)).
  { induction s as [|c s [IHa IHb]].
    - split; [exact H0 | exact H1].
    - split; [apply IHb | intros c0; apply H2; [exact IHa | apply IHb]]. }
  apply H.
Qed.

(** Case analysis on a character comparison, keeping the equation. *)
Ltac ascii_cases c d :=
  let E := fresh "E" in
  destruct (Ascii.eqb_spec c d) as [E|E]; [try subst c | idtac].

(** ** The escapers *)

Lemma SQLEscapeLiteral_loop_spec (p osVal : string) :
  SQLEscapeLiteral_loop p osVal
  = (osVal ++ double_char SQUOTE (c_str p))%string.
Proof.
  revert osVal. induction p as [|c p IH]; intros osVal; simpl.
  - now rewrite append_nil_r.
  - destruct (Ascii.eqb c NUL) eqn:En; simpl.
    + now rewrite append_nil_r.
    + rewrite IH. unfold push_back.
      destruct (Ascii.eqb c SQUOTE) eqn:Eq; simpl.
      * apply Ascii.eqb_eq in Eq. subst c.
        now rewrite !append_assoc.
      * now rewrite append_assoc.
Qed.

Lemma SQLEscapeName_loop_spec (p osRet : string) :
  SQLEscapeName_loop p osRet
  = (osRet ++ double_char DQUOTE (c_str p))%string.
Proof.
  revert osRet. induction p as [|c p IH]; intros osRet; simpl.
  - now rewrite append_nil_r.
  - destruct (Ascii.eqb c NUL) eqn:En; simpl.
    + now rewrite append_nil_r.
    + destruct (Ascii.eqb c DQUOTE) eqn:Eq; simpl; rewrite IH.
      * apply Ascii.eqb_eq in Eq. subst c.
        now rewrite append_assoc.
      * unfold push_back. now rewrite append_assoc.
Qed.

Lemma SQLEscapeLiteral_c_str (p : string) :
  SQLEscapeLiteral p = double_char SQUOTE (c_str p).
Proof. unfold SQLEscapeLiteral. now rewrite SQLEscapeLiteral_loop_spec. Qed.

Lemma SQLEscapeName_doubles (raw : string) :
  nul_free raw = true -> SQLEscapeName raw = double_char DQUOTE raw.
Proof.
  intros H. unfold SQLEscapeName.
  now rewrite SQLEscapeName_loop_spec, (c_str_nul_free raw H).
Qed.

(** C6: [SQLEscapeLiteral] writes every single quote of its input twice and
    every other character once, in order, and nothing else: no delimiter is
    put around the result.  It is defined on every text, the empty one
    included; ["it's"] becomes ["it''s"] and [""] stays [""]. *)
Theorem SQLEscapeLiteral_doubles_single_quotes :
  (forall raw : string,
      nul_free raw = true -> SQLEscapeLiteral raw = double_char SQUOTE raw)
  /\ SQLEscapeLiteral "it's" = "it''s"%string
  /\ SQLEscapeLiteral "" = ""%string.
Proof.
  split; [|split; reflexivity].
  intros raw H. now rewrite SQLEscapeLiteral_c_str, (c_str_nul_free raw H).
Qed.

Lemma SQLEscapeLiteral_doubles_single_quotes_witness :
  SQLEscapeLiteral "a'b''c" = double_char SQUOTE "a'b''c".
Proof.
  apply (proj1 SQLEscapeLiteral_doubles_single_quotes). reflexivity.
Defined.

(** C9: [SQLEscapeLiteral] is not idempotent: escaping the escaped form of
    a text that holds a single quote doubles the quotes once more. *)
Theorem SQLEscapeLiteral_not_idempotent :
  exists s : string,
    SQLEscapeLiteral (SQLEscapeLiteral s) <> SQLEscapeLiteral s.
Proof. exists "it's"%string. vm_compute. discriminate. Qed.

(** ** The unescaper *)

Lemma SQLUnescape_loop_cons (q c : ascii) (rest osRet : string) :
  SQLUnescape_loop q (String c rest) osRet
  = if Ascii.eqb c NUL then osRet
    else if Ascii.eqb c q then
      if Ascii.eqb (peek rest) q then
        match rest with
        | EmptyString => osRet
        | String c' rest' => SQLUnescape_loop q rest' (push_back osRet c')
        end
      else osRet
    else SQLUnescape_loop q rest (push_back osRet c).
Proof. reflexivity. Qed.

Lemma c_str_cons (c : ascii) (rest : string) :
  c_str (String c rest)
  = if Ascii.eqb c NUL then EmptyString else String c (c_str rest).
Proof. reflexivity. Qed.

Lemma collapse_cons_other (q c : ascii) (rest : string) :
  c <> q -> collapse q (String c rest) = String c (collapse q rest).
Proof.
  intros H. cbn [collapse]. now destruct (Ascii.eqb_spec c q).
Qed.

Lemma collapse_cons_pair (q : ascii) (rest : string) :
  collapse q (String q (String q rest)) = String q (collapse q rest).
Proof. cbn [collapse]. now rewrite !Ascii.eqb_refl. Qed.

Lemma collapse_cons_close (q : ascii) (rest : string) :
  peek rest <> q -> collapse q (String q rest) = EmptyString.
Proof.
  intros H. cbn [collapse]. rewrite Ascii.eqb_refl.
  destruct rest as [|c rest]; [reflexivity|].
  cbn [peek] in H. now destruct (Ascii.eqb_spec c q).
Qed.

Lemma peek_c_str (p : string) : peek (c_str p) = peek p.
Proof.
  destruct p as [|c p]; [reflexivity|].
  rewrite c_str_cons. now destruct (Ascii.eqb_spec c NUL) as [->|].
Qed.

Lemma SQLUnescape_loop_spec (q : ascii) :
  q <> NUL ->
  forall p osRet : string,
    SQLUnescape_loop q p osRet = (osRet ++ collapse q (c_str p))%string.
Proof.
  intros Hq p. induction p as [|c|c1 c2 p IH2 IH1] using string_ind2;
    intros osRet.
  - cbn. now rewrite append_nil_r.
  - rewrite SQLUnescape_loop_cons, c_str_cons.
    ascii_cases c NUL; [cbn; now rewrite append_nil_r|].
    ascii_cases c q.
    + rewrite collapse_cons_close by (cbn; congruence).
      destruct (Ascii.eqb (peek "") q); cbn; now rewrite append_nil_r.
    + rewrite collapse_cons_other by assumption. reflexivity.
  - rewrite SQLUnescape_loop_cons, (c_str_cons c1).
    ascii_cases c1 NUL; [cbn; now rewrite append_nil_r|].
    ascii_cases c1 q.
    + cbn [peek]. ascii_cases c2 q.
      * rewrite IH2, c_str_cons.
        destruct (Ascii.eqb_spec q NUL); [contradiction|].
        rewrite collapse_cons_pair.
        unfold push_back. now rewrite append_assoc.
      * rewrite collapse_cons_close; [now rewrite append_nil_r|].
        now rewrite peek_c_str.
    + rewrite IH1, collapse_cons_other by assumption.
      unfold push_back. now rewrite append_assoc.
Qed.

Lemma is_quote_not_nul (q : ascii) : is_quote q = true -> q <> NUL.
Proof. intros H ->. discriminate H. Qed.

Lemma SQLUnescape_quoted (q : ascii) (body : string) :
  is_quote q = true ->
  SQLUnescape (String q body) = collapse q (c_str body).
Proof.
  intros Hq. pose proof (is_quote_not_nul q Hq) as Hn.
  unfold SQLUnescape. cbn [peek].
  unfold is_quote in Hq. apply orb_true_iff in Hq.
  replace (negb (Ascii.eqb q SQUOTE) && negb (Ascii.eqb q DQUOTE)) with false
    by (destruct Hq as [-> | ->]; [reflexivity | now rewrite andb_false_r]).
  now rewrite (SQLUnescape_loop_spec q Hn).
Qed.

Lemma SQLUnescape_bare (token : string) :
  is_quote (peek token) = false -> SQLUnescape token = c_str token.
Proof.
  intros H. unfold SQLUnescape. unfold is_quote in H.
  apply orb_false_iff in H. destruct H as [-> ->]. reflexivity.
Qed.

Lemma collapse_double_char (q : ascii) (raw tail : string) :
  collapse q (double_char q raw ++ tail) = (raw ++ collapse q tail)%string.
Proof.
  induction raw as [|c raw IH]; [reflexivity|].
  cbn [double_char]. ascii_cases c q; cbn [append].
  - now rewrite collapse_cons_pair, IH.
  - now rewrite collapse_cons_other, IH by assumption.
Qed.

Lemma nul_free_append (a b : string) :
  nul_free (a ++ b) = nul_free a && nul_free b.
Proof.
  induction a as [|c a IH]; [reflexivity|].
  simpl. now rewrite IH, andb_assoc.
Qed.

Lemma nul_free_double_char (q : ascii) (raw : string) :
  nul_free (double_char q raw) = nul_free raw.
Proof.
  induction raw as [|c raw IH]; [reflexivity|].
  simpl. destruct (Ascii.eqb c q); simpl; rewrite IH;
    destruct (Ascii.eqb c NUL); reflexivity.
Qed.

Lemma unclosed_append (q : ascii) (a b : string) :
  unclosed q a = true -> unclosed q (a ++ b) = unclosed q b.
Proof.
  induction a as [|c|c1 c2 a IH2 IH1] using string_ind2.
  - reflexivity.
  - cbn [unclosed append]. now destruct (Ascii.eqb c q).
  - change (String c1 (String c2 a) ++ b)%string
      with (String c1 (String c2 (a ++ b))).
    cbn [unclosed]. destruct (Ascii.eqb c1 q).
    + intros H. apply andb_true_iff in H. destruct H as [-> H].
      now rewrite IH2.
    + exact IH1.
Qed.

Lemma unclosed_push_other (q c : ascii) (body : string) :
  c <> q -> unclosed q body = true -> unclosed q (push_back body c) = true.
Proof.
  intros Hc H. unfold push_back. rewrite unclosed_append by exact H.
  cbn [unclosed]. now destruct (Ascii.eqb_spec c q).
Qed.

Lemma unclosed_push_pair (q : ascii) (body : string) :
  unclosed q body = true ->
  unclosed q (push_back (push_back body q) q) = true.
Proof.
  intros H. unfold push_back. rewrite append_assoc.
  rewrite unclosed_append by exact H.
  cbn [append unclosed]. now rewrite !Ascii.eqb_refl.
Qed.

Lemma unclosed_double_char (q : ascii) (raw : string) :
  unclosed q (double_char q raw) = true.
Proof.
  induction raw as [|c raw IH]; [reflexivity|].
  cbn [double_char]. ascii_cases c q; cbn [unclosed].
  - now rewrite !Ascii.eqb_refl.
  - now destruct (Ascii.eqb_spec c q).
Qed.

Lemma double_char_collapse (q : ascii) (body : string) :
  unclosed q body = true -> double_char q (collapse q body) = body.
Proof.
  induction body as [|c|c1 c2 body IH2 IH1] using string_ind2.
  - reflexivity.
  - cbn [unclosed collapse]. ascii_cases c q; [discriminate|].
    intros _. cbn [double_char]. now destruct (Ascii.eqb_spec c q).
  - cbn [unclosed]. ascii_cases c1 q.
    + intros H. apply andb_true_iff in H. destruct H as [Hc H].
      apply Ascii.eqb_eq in Hc. subst c2.
      rewrite collapse_cons_pair. cbn [double_char].
      now rewrite Ascii.eqb_refl, IH2.
    + intros H. rewrite collapse_cons_other by assumption.
      cbn [double_char]. destruct (Ascii.eqb_spec c1 q); [contradiction|].
      now rewrite IH1.
Qed.

(** C7: [SQLUnescape] returns a token that is empty or does not start with
    a single or double quote as it is.  Otherwise, with [q] the first
    character, the result is the rest of the token with every doubled [q]
    collapsed to one [q], cut at the first undoubled [q], which is not
    emitted.  When no closing delimiter occurs nothing is cut: doubling the
    [q]s of the result gives back the whole rest of the token. *)
Theorem SQLUnescape_behaviour (token : string) :
  nul_free token = true ->
  (token = EmptyString \/ is_quote (peek token) = false ->
   SQLUnescape token = token)
  /\ (forall (q : ascii) (body : string),
         token = String q body -> is_quote q = true ->
         SQLUnescape token = collapse q body
         /\ (unclosed q body = true ->
             double_char q (SQLUnescape token) = body)).
Proof.
  intros Hnf. split.
  - intros H. rewrite SQLUnescape_bare.
    + now apply c_str_nul_free.
    + destruct H as [-> | H]; [reflexivity | exact H].
  - intros q body -> Hq.
    assert (Hb : c_str body = body).
    { apply c_str_nul_free. cbn [nul_free] in Hnf.
      now apply andb_true_iff in Hnf. }
    rewrite SQLUnescape_quoted, Hb by exact Hq.
    split; [reflexivity | apply double_char_collapse].
Qed.

Lemma SQLUnescape_behaviour_witness :
  SQLUnescape "'it''s' x" = collapse SQUOTE "it''s' x"
  /\ SQLUnescape "bareword" = "bareword"%string
  /\ double_char SQUOTE (SQLUnescape "'it''s") = "it''s"%string.
Proof.
  split; [|split].
  - apply (proj2 (SQLUnescape_behaviour "'it''s' x" eq_refl)
             SQUOTE "it''s' x" eq_refl eq_refl).
  - apply (proj1 (SQLUnescape_behaviour "bareword" eq_refl)).
    right. reflexivity.
  - apply (proj2 (SQLUnescape_behaviour "'it''s" eq_refl)
             SQUOTE "it''s" eq_refl eq_refl).
    reflexivity.
Defined.

(** C2: round trip.  For every text [s] (a C string, so without NUL), with
    or without single quotes in it, unescaping the escaped text put between
    two single quotes gives [s] back. *)
Theorem SQLUnescape_SQLEscapeLiteral_roundtrip (s : string) :
  nul_free s = true ->
  SQLUnescape (String SQUOTE (SQLEscapeLiteral s ++ String SQUOTE "")) = s.
Proof.
  intros Hnf.
  rewrite SQLUnescape_quoted by reflexivity.
  rewrite SQLEscapeLiteral_c_str, (c_str_nul_free s Hnf).
  rewrite c_str_nul_free.
  - rewrite collapse_double_char.
    rewrite collapse_cons_close by (cbn; discriminate).
    apply append_nil_r.
  - now rewrite nul_free_append, nul_free_double_char, Hnf.
Qed.

Lemma SQLUnescape_SQLEscapeLiteral_roundtrip_witness :
  SQLUnescape (String SQUOTE (SQLEscapeLiteral "it's ''" ++ String SQUOTE ""))
  = "it's ''"%string.
Proof.
  apply (SQLUnescape_SQLEscapeLiteral_roundtrip "it's ''"). reflexivity.
Defined.

(** ** The tokenizer *)

Lemma scan_loop_cons (st : scan_state) (c : ascii) (rest : string) :
  scan_loop st (String c rest)
  = if Ascii.eqb c NUL then st
    else match scan_step st c (peek rest) with
         | (st', ByOne) => scan_loop st' rest
         | (st', ByTwo) =>
             match rest with
             | EmptyString => st'
             | String _ rest' => scan_loop st' rest'
             end
         end.
Proof. reflexivity. Qed.

Section LoopInvariant.

Variable Inv : scan_state -> Prop.
Hypothesis Inv_step :
  forall st c next, c <> NUL -> Inv st -> Inv (fst (scan_step st c next)).

(** What every iteration keeps holds when the loop is left. *)
Lemma scan_loop_invariant (p : string) :
  forall st, Inv st -> Inv (scan_loop st p).
Proof.
  induction p as [|c|c1 c2 p IH2 IH1] using string_ind2; intros st Hst.
  - exact Hst.
  - rewrite scan_loop_cons. ascii_cases c NUL; [exact Hst|].
    pose proof (Inv_step st c (peek "") E Hst) as H.
    destruct (scan_step st c (peek "")) as [st' [|]]; exact H.
  - rewrite scan_loop_cons. ascii_cases c1 NUL; [exact Hst|].
    pose proof (Inv_step st c1 (peek (String c2 p)) E Hst) as H.
    destruct (scan_step st c1 (peek (String c2 p))) as [st' [|]];
      cbn [fst] in H; [apply IH1 | apply IH2]; exact H.
Qed.

End LoopInvariant.

Lemma scan_wf_iff (st : scan_state) :
  scan_wf st = true <->
  forallb (fun t => negb (is_empty t)) (papszTokens st) = true
  /\ bInSpace st = is_empty (osCurrentToken st)
  /\ (bInQuote st = true ->
      is_quote (chQuoteChar st) = true
      /\ exists body, osCurrentToken st = String (chQuoteChar st) body
                      /\ unclosed (chQuoteChar st) body = true).
Proof.
  unfold scan_wf. rewrite !andb_true_iff, Bool.eqb_true_iff.
  split.
  - intros [[H1 H2] H3]. split; [exact H1 | split; [exact H2|]].
    intros Hq. rewrite Hq in H3. apply andb_true_iff in H3.
    destruct H3 as [H3 H4]. split; [exact H3|].
    destruct (osCurrentToken st) as [|c body]; [discriminate|].
    apply andb_true_iff in H4. destruct H4 as [H4 H5].
    apply Ascii.eqb_eq in H4. subst c. now exists body.
  - intros [H1 [H2 H3]]. split; [split; assumption|].
    destruct (bInQuote st); [|reflexivity].
    destruct (H3 eq_refl) as [H4 [body [-> H5]]].
    now rewrite H4, Ascii.eqb_refl, H5.
Qed.

Lemma forallb_snoc {A : Type} (f : A -> bool) (l : list A) (x : A) :
  forallb f (l ++ [x]) = forallb f l && f x.
Proof. rewrite forallb_app. cbn. now rewrite andb_true_r. Qed.

Lemma scan_step_wf (st : scan_state) (c next : ascii) :
  scan_wf st = true -> scan_wf (fst (scan_step st c next)) = true.
Proof.
  rewrite !scan_wf_iff.
  destruct st as [toks inq q sp tok]. cbn [papszTokens bInQuote chQuoteChar
    bInSpace osCurrentToken]. intros (Ht & Hs & Hq).
  unfold scan_step, flush_unless_space, CSLAddString.
  cbn [papszTokens bInQuote chQuoteChar bInSpace osCurrentToken].
  destruct inq.
  - (* inside a quoted span *)
    destruct (Hq eq_refl) as [Hqq [body [-> Hb]]]. cbn [is_empty] in Hs.
    subst sp. rewrite !andb_false_r. cbn [andb].
    destruct (Ascii.eqb c DQUOTE || Ascii.eqb c SQUOTE) eqn:Ec.
    + ascii_cases c q; cbn [andb].
      * destruct (Ascii.eqb next q); cbn [fst papszTokens bInQuote
          chQuoteChar bInSpace osCurrentToken].
        -- split; [exact Ht | split; [reflexivity|]]. intros _.
           split; [exact Hqq|]. eexists. split; [reflexivity|].
           now apply unclosed_push_pair.
        -- rewrite forallb_snoc, Ht.
           split; [reflexivity | split; [reflexivity | discriminate]].
      * cbn [fst papszTokens bInQuote chQuoteChar bInSpace osCurrentToken].
        split; [exact Ht | split; [reflexivity|]]. intros _.
        split; [exact Hqq|]. eexists. split; [reflexivity|].
        now apply unclosed_push_other.
    + cbn [fst papszTokens bInQuote chQuoteChar bInSpace osCurrentToken].
      split; [exact Ht | split; [reflexivity|]]. intros _.
      split; [exact Hqq|]. eexists. split; [reflexivity|].
      apply unclosed_push_other; [|exact Hb].
      intros ->. unfold is_quote in Hqq. rewrite orb_comm in Hqq. congruence.
  - (* outside *)
    clear Hq. rewrite !andb_true_r. cbn [andb].
    assert (Hflush : forallb (fun t => negb (is_empty t))
                       (fst (if negb sp then ((toks ++ [tok])%list, "")
                             else (toks, tok))) = true).
    { destruct sp; cbn [negb fst]; [exact Ht|].
      now rewrite forallb_snoc, Ht, <- Hs. }
    destruct (Ascii.eqb c SPACE).
    + destruct sp; cbn [negb fst papszTokens bInQuote chQuoteChar bInSpace
        osCurrentToken] in *.
      * split; [exact Ht | split; [exact Hs | discriminate]].
      * split; [exact Hflush | split; [reflexivity | discriminate]].
    + destruct (is_punct c).
      * destruct (if negb sp then ((toks ++ [tok])%list, "") else (toks, tok))
          as [toks' cur']. cbn [fst papszTokens bInQuote chQuoteChar bInSpace
          osCurrentToken] in *.
        rewrite forallb_snoc, Hflush.
        split; [reflexivity | split; [reflexivity | discriminate]].
      * destruct (Ascii.eqb c DQUOTE || Ascii.eqb c SQUOTE) eqn:Ec;
          cbn [fst papszTokens bInQuote chQuoteChar bInSpace osCurrentToken].
        -- split; [exact Ht | split; [reflexivity|]]. intros _.
           unfold is_quote. rewrite orb_comm. split; [exact Ec|].
           exists "". split; reflexivity.
        -- split; [exact Ht | split; [|discriminate]].
           now rewrite is_empty_push_back.
Qed.

Lemma scan_init_wf : scan_wf scan_init = true.
Proof. reflexivity. Qed.

Lemma reachable_wf (st : scan_state) : reachable st -> scan_wf st = true.
Proof.
  induction 1 as [|st c next _ IH _]; [exact scan_init_wf|].
  now apply scan_step_wf.
Qed.

Lemma scan_loop_reachable (p : string) (st : scan_state) :
  reachable st -> reachable (scan_loop st p).
Proof.
  apply scan_loop_invariant. intros st0 c next Hc H.
  now apply reach_step.
Qed.

Lemma scan_loop_wf (p : string) (st : scan_state) :
  scan_wf st = true -> scan_wf (scan_loop st p) = true.
Proof.
  apply (scan_loop_invariant (fun s => scan_wf s = true)).
  intros st0 c next _. apply scan_step_wf.
Qed.

Lemma no_empty_token (l : list string) :
  forallb (fun t => negb (is_empty t)) l = true -> ~ In "" l.
Proof.
  intros H Hin. rewrite forallb_forall in H.
  specialize (H "" Hin). discriminate H.
Qed.

Lemma is_quote_comm (c : ascii) :
  Ascii.eqb c DQUOTE || Ascii.eqb c SQUOTE = is_quote c.
Proof. unfold is_quote. apply orb_comm. Qed.

Lemma is_quote_not_space (c : ascii) :
  is_quote c = true -> Ascii.eqb c SPACE = false /\ is_punct c = false.
Proof.
  unfold is_quote. intros H. apply orb_true_iff in H.
  destruct H as [H|H]; apply Ascii.eqb_eq in H; subst c; split; reflexivity.
Qed.

Lemma is_punct_not_space (c : ascii) :
  is_punct c = true -> Ascii.eqb c SPACE = false /\ c <> NUL.
Proof.
  unfold is_punct. intros H. rewrite !orb_true_iff in H.
  destruct H as [[H|H]|H]; apply Ascii.eqb_eq in H; subst c;
    split; (reflexivity || discriminate).
Qed.

(** C1: inside a span opened by the quote character [q], a [q] that is
    followed by a second [q] puts both on the current token and moves the
    scan two characters on; the span stays open and no token is emitted.
    So ['it''s'] is one token, its doubled quote kept as written. *)
Theorem SQLTokenize_doubled_quote :
  (forall (st : scan_state) (q : ascii) (rest : string),
      bInQuote st = true -> chQuoteChar st = q -> is_quote q = true ->
      let st' := with_token st (osCurrentToken st ++ String q (String q "")) in
      scan_step st q q = (st', ByTwo)
      /\ scan_loop st (String q (String q rest)) = scan_loop st' rest)
  /\ SQLTokenize "'it''s'" = ["'it''s'"].
Proof.
  split; [|reflexivity].
  intros st q rest Hin Hq Hqq st'.
  assert (Hstep : scan_step st q q = (st', ByTwo)).
  { unfold scan_step. rewrite Hin, Hq, is_quote_comm, Hqq.
    rewrite !andb_false_r, Ascii.eqb_refl. cbn [negb andb].
    unfold st', with_token, push_back.
    now rewrite Hin, Hq, append_assoc. }
  split; [exact Hstep|].
  rewrite scan_loop_cons. cbn [peek]. rewrite Hstep.
  destruct (Ascii.eqb_spec q NUL) as [E|E]; [|reflexivity].
  exfalso. exact (is_quote_not_nul q Hqq E).
Qed.

Lemma SQLTokenize_doubled_quote_witness :
  scan_loop (mkScan ["a"] true SQUOTE false "'it") "''s'"
  = scan_loop (mkScan ["a"] true SQUOTE false "'it''") "s'".
Proof.
  apply (proj1 SQLTokenize_doubled_quote
           (mkScan ["a"] true SQUOTE false "'it") SQUOTE "s'");
    reflexivity.
Defined.

(** C3: no token that [SQLTokenize] returns is the empty string, whatever
    the input; the empty input gives no token, and runs of spaces give
    none either. *)
Theorem SQLTokenize_no_empty_token :
  (forall s : string, ~ In "" (SQLTokenize s))
  /\ SQLTokenize "" = []
  /\ SQLTokenize "  x   y  " = ["x"; "y"].
Proof.
  split; [|split; reflexivity].
  intros s. unfold SQLTokenize, scan_finish.
  pose proof (scan_loop_wf s scan_init scan_init_wf) as H.
  apply scan_wf_iff in H. destruct H as [Ht _].
  destruct (osCurrentToken (scan_loop scan_init s)) as [|c tok] eqn:E.
  - now apply no_empty_token.
  - apply no_empty_token. unfold CSLAddString.
    now rewrite forallb_snoc, Ht.
Qed.

(** C5: outside a quoted span, at one of [(], [)] and [,] the accumulated
    token, when there is one, is emitted first, and then the character as a
    token of its own, exactly one character long; the accumulator is left
    empty.  So [f(a, b)] gives [f], [(], [a], [,], [b], [)]. *)
Theorem SQLTokenize_punctuation :
  (forall (st : scan_state) (c next : ascii),
      is_punct c = true -> bInQuote st = false -> scan_wf st = true ->
      scan_step st c next
      = (mkScan (papszTokens st
                 ++ (if is_empty (osCurrentToken st) then []
                     else [osCurrentToken st])
                 ++ [char_token c])%list
                false (chQuoteChar st) true "",
         ByOne))
  /\ SQLTokenize "f(a, b)" = ["f"; "("; "a"; ","; "b"; ")"].
Proof.
  split; [|reflexivity].
  intros st c next Hc Hin Hwf.
  apply scan_wf_iff in Hwf. destruct Hwf as (_ & Hs & _).
  destruct (is_punct_not_space c Hc) as [Hsp _].
  unfold scan_step, flush_unless_space, CSLAddString.
  rewrite Hsp, Hc, Hin, Hs. cbn [andb negb].
  destruct (is_empty (osCurrentToken st)); cbn [negb app].
  - reflexivity.
  - now rewrite <- app_assoc.
Qed.

Lemma SQLTokenize_punctuation_witness :
  scan_step (mkScan ["f"; "("] false NUL false "a") COMMA SPACE
  = (mkScan ["f"; "("; "a"; ","] false NUL true "", ByOne).
Proof.
  apply (proj1 SQLTokenize_punctuation
           (mkScan ["f"; "("] false NUL false "a") COMMA SPACE);
    reflexivity.
Defined.

(** C10: outside a quoted span, a quote character starts a new token that
    holds that quote alone.  The characters of a word accumulated before it
    are dropped: they are not emitted, and they are not part of the new
    token.  So [ab'c'] gives the one token ['c'] and no token [ab]. *)
Theorem SQLTokenize_quote_discards_word :
  (forall (st : scan_state) (c next : ascii),
      is_quote c = true -> bInQuote st = false ->
      scan_step st c next
      = (mkScan (papszTokens st) true c false (char_token c), ByOne))
  /\ SQLTokenize "ab'c'" = ["'c'"].
Proof.
  split; [|reflexivity].
  intros st c next Hc Hin.
  destruct (is_quote_not_space c Hc) as [Hsp Hp].
  unfold scan_step. rewrite Hsp, Hp, Hin, is_quote_comm, Hc. reflexivity.
Qed.

Lemma SQLTokenize_quote_discards_word_witness :
  scan_step (mkScan ["x"] false NUL false "ab") SQUOTE "c"%char
  = (mkScan ["x"] true SQUOTE false "'", ByOne).
Proof.
  apply (proj1 SQLTokenize_quote_discards_word
           (mkScan ["x"] false NUL false "ab") SQUOTE "c"%char);
    reflexivity.
Defined.

Lemma scan_punct_space (s : string) :
  only_punct_space s = true ->
  forall (toks : list string) (q : ascii),
    scan_finish (scan_loop (mkScan toks false q true "") s)
    = (toks ++ punct_tokens s)%list.
Proof.
  induction s as [|c s IH]; intros Hs toks q.
  - cbn. now rewrite app_nil_r.
  - cbn [only_punct_space] in Hs. apply andb_true_iff in Hs.
    destruct Hs as [Hc Hs]. rewrite scan_loop_cons.
    unfold punct_tokens. cbn [list_ascii_of_string filter].
    ascii_cases c SPACE.
    + change (Ascii.eqb SPACE NUL) with false. cbv iota.
      unfold scan_step, flush_unless_space.
      cbn [bInQuote bInSpace papszTokens osCurrentToken chQuoteChar].
      rewrite Ascii.eqb_refl. cbn [negb andb]. now apply IH.
    + rewrite orb_false_r in Hc.
      destruct (is_punct_not_space c Hc) as [Hsp Hn].
      destruct (Ascii.eqb_spec c NUL); [contradiction|].
      unfold scan_step, flush_unless_space, CSLAddString.
      cbn [bInQuote bInSpace papszTokens osCurrentToken chQuoteChar].
      rewrite Hsp, Hc. cbn [negb andb map].
      rewrite (IH Hs). unfold punct_tokens. now rewrite <- app_assoc.
Qed.

(** C8, as the specification words it, fails where the input holds a
    space: [( )] gives the two tokens [(] and [)], not three. *)
Lemma SQLTokenize_space_is_no_token :
  only_punct_space "( )" = true /\ ~ each_char_own_token "( )".
Proof. split; [reflexivity | unfold each_char_own_token; discriminate]. Qed.

(** C8, amended: for an input made of punctuation and space characters
    only, the tokens are the punctuation characters of the input, each a
    token of one character, in the order of the input; the spaces give no
    token. *)
Theorem SQLTokenize_punct_space_input (s : string) :
  only_punct_space s = true -> SQLTokenize s = punct_tokens s.
Proof.
  intros Hs. unfold SQLTokenize, scan_init.
  now rewrite scan_punct_space.
Qed.

Lemma SQLTokenize_punct_space_input_witness :
  SQLTokenize " (, ) ," = punct_tokens " (, ) ,".
Proof.
  apply (SQLTokenize_punct_space_input " (, ) ,"). reflexivity.
Defined.

(** ** The remaining examples of the specification *)

Example SQLTokenize_select :
  SQLTokenize "SELECT * FROM foo" = ["SELECT"; "*"; "FROM"; "foo"].
Proof. reflexivity. Qed.

Example SQLTokenize_double_quoted :
  let q := String DQUOTE "" in
  SQLTokenize (q ++ "a" ++ q ++ q ++ "b" ++ q)
  = [q ++ "a" ++ q ++ q ++ "b" ++ q].
Proof. reflexivity. Qed.

Example SQLTokenize_other_quote_inside :
  let q := String DQUOTE "" in
  SQLTokenize ("'a" ++ q ++ "b' c") = ["'a" ++ q ++ "b'"; "c"].
Proof. reflexivity. Qed.

Example SQLEscapeName_example :
  let q := String DQUOTE "" in
  SQLEscapeName ("a" ++ q ++ "b") = "a" ++ q ++ q ++ "b".
Proof. reflexivity. Qed.

Example SQLUnescape_double_quoted :
  let q := String DQUOTE "" in
  SQLUnescape (q ++ "a" ++ q ++ q ++ "b" ++ q) = "a" ++ q ++ "b".
Proof. reflexivity. Qed.

Example SQLUnescape_single_quoted : SQLUnescape "'it''s'" = "it's".
Proof. reflexivity. Qed.

(** ** Further properties of the escapers *)

Lemma c_str_append (a b : string) :
  nul_free a = true -> c_str (a ++ b) = a ++ c_str b.
Proof.
  induction a as [|c a IH]; [reflexivity|].
  cbn [nul_free append]. rewrite c_str_cons.
  destruct (Ascii.eqb c NUL); cbn [negb andb]; [discriminate|].
  intros H. now rewrite IH.
Qed.

Lemma double_char_append (q : ascii) (a b : string) :
  double_char q (a ++ b) = double_char q a ++ double_char q b.
Proof.
  induction a as [|c a IH]; [reflexivity|].
  cbn [append double_char]. destruct (Ascii.eqb c q); cbn [append];
    now rewrite IH.
Qed.

Lemma length_double_char (q : ascii) (s : string) :
  String.length (double_char q s) = String.length s + count_char q s.
Proof.
  induction s as [|c s IH]; [reflexivity|].
  cbn [double_char count_char]. destruct (Ascii.eqb c q);
    cbn [String.length]; rewrite IH; lia.
Qed.

Lemma double_char_no_quote (q : ascii) (s : string) :
  count_char q s = 0 -> double_char q s = s.
Proof.
  induction s as [|c s IH]; [reflexivity|].
  cbn [double_char count_char]. destruct (Ascii.eqb c q); [discriminate|].
  intros H. now rewrite IH.
Qed.

Lemma double_char_injective (q : ascii) (a b : string) :
  double_char q a = double_char q b -> a = b.
Proof.
  intros H.
  pose proof (collapse_double_char q a "") as Ha.
  pose proof (collapse_double_char q b "") as Hb.
  cbn [collapse] in Ha, Hb. rewrite append_nil_r in Ha, Hb.
  rewrite append_nil_r in Ha, Hb. congruence.
Qed.

Lemma SQLEscapeName_c_str (p : string) :
  SQLEscapeName p = double_char DQUOTE (c_str p).
Proof. unfold SQLEscapeName. now rewrite SQLEscapeName_loop_spec. Qed.

(** X1: [SQLEscapeName] writes every double quote of its input twice and
    every other character once, in order, and nothing else; it leaves
    single quotes alone. *)
Theorem SQLEscapeName_doubles_double_quotes (raw : string) :
  nul_free raw = true ->
  SQLEscapeName raw = double_char DQUOTE raw
  /\ count_char SQUOTE (SQLEscapeName raw) = count_char SQUOTE raw.
Proof.
  intros H. rewrite SQLEscapeName_c_str, (c_str_nul_free raw H).
  split; [reflexivity|].
  clear H. induction raw as [|c raw IH]; [reflexivity|].
  cbn [double_char]. ascii_cases c DQUOTE.
  - cbn [count_char]. change (Ascii.eqb DQUOTE SQUOTE) with false.
    cbv iota. exact IH.
  - cbn [count_char]. now rewrite IH.
Qed.

Lemma SQLEscapeName_doubles_double_quotes_witness :
  SQLEscapeName "a'b" = double_char DQUOTE "a'b"
  /\ count_char SQUOTE (SQLEscapeName "a'b") = count_char SQUOTE "a'b".
Proof.
  apply (SQLEscapeName_doubles_double_quotes "a'b"). reflexivity.
Defined.

(** X2: unescaping an identifier escaped by [SQLEscapeName] and put
    between two double quotes gives the identifier back. *)
Theorem SQLUnescape_SQLEscapeName_roundtrip (s : string) :
  nul_free s = true ->
  SQLUnescape (String DQUOTE (SQLEscapeName s ++ String DQUOTE "")) = s.
Proof.
  intros Hnf.
  rewrite SQLUnescape_quoted by reflexivity.
  rewrite SQLEscapeName_c_str, (c_str_nul_free s Hnf).
  rewrite c_str_nul_free.
  - rewrite collapse_double_char.
    rewrite collapse_cons_close by (cbn; discriminate).
    apply append_nil_r.
  - now rewrite nul_free_append, nul_free_double_char, Hnf.
Qed.

Lemma SQLUnescape_SQLEscapeName_roundtrip_witness :
  SQLUnescape (String DQUOTE (SQLEscapeName "my table" ++ String DQUOTE ""))
  = "my table".
Proof.
  apply (SQLUnescape_SQLEscapeName_roundtrip "my table"). reflexivity.
Defined.

(** X3: the escapers work piece by piece: escaping a concatenation gives
    the concatenation of the escaped pieces. *)
Theorem SQLEscape_append (a b : string) :
  nul_free a = true ->
  SQLEscapeLiteral (a ++ b) = SQLEscapeLiteral a ++ SQLEscapeLiteral b
  /\ SQLEscapeName (a ++ b) = SQLEscapeName a ++ SQLEscapeName b.
Proof.
  intros H.
  rewrite !SQLEscapeLiteral_c_str, !SQLEscapeName_c_str.
  rewrite (c_str_append a b H), (c_str_nul_free a H).
  now rewrite !double_char_append.
Qed.

Lemma SQLEscape_append_witness :
  SQLEscapeLiteral ("it's" ++ " 'x'")
  = SQLEscapeLiteral "it's" ++ SQLEscapeLiteral " 'x'"
  /\ SQLEscapeName ("it's" ++ " 'x'")
     = SQLEscapeName "it's" ++ SQLEscapeName " 'x'".
Proof. apply (SQLEscape_append "it's" " 'x'"). reflexivity. Defined.

(** X4: the escaped literal is longer than the text by the number of its
    single quotes, so never shorter and never more than twice as long; it
    is the text itself exactly when the text holds no single quote. *)
Theorem SQLEscapeLiteral_length (s : string) :
  nul_free s = true ->
  String.length (SQLEscapeLiteral s)
  = String.length s + count_char SQUOTE s
  /\ String.length (SQLEscapeLiteral s) <= 2 * String.length s
  /\ (SQLEscapeLiteral s = s <-> count_char SQUOTE s = 0).
Proof.
  intros H. rewrite SQLEscapeLiteral_c_str, (c_str_nul_free s H).
  pose proof (length_double_char SQUOTE s) as HL.
  assert (Hc : count_char SQUOTE s <= String.length s).
  { clear. induction s as [|c s IH]; [apply le_n|].
    cbn [count_char String.length]. destruct (Ascii.eqb c SQUOTE); lia. }
  split; [exact HL | split; [lia|]]. split.
  - intros E. rewrite E in HL. lia.
  - apply double_char_no_quote.
Qed.

Lemma SQLEscapeLiteral_length_witness :
  String.length (SQLEscapeLiteral "it's")
  = String.length "it's" + count_char SQUOTE "it's"
  /\ String.length (SQLEscapeLiteral "it's") <= 2 * String.length "it's"
  /\ (SQLEscapeLiteral "it's" = "it's" <-> count_char SQUOTE "it's" = 0).
Proof. apply (SQLEscapeLiteral_length "it's"). reflexivity. Defined.

(** X5: the escapers lose nothing: two texts with the same escaped form
    are the same text. *)
Theorem SQLEscape_injective (a b : string) :
  nul_free a = true -> nul_free b = true ->
  (SQLEscapeLiteral a = SQLEscapeLiteral b -> a = b)
  /\ (SQLEscapeName a = SQLEscapeName b -> a = b).
Proof.
  intros Ha Hb.
  rewrite !SQLEscapeLiteral_c_str, !SQLEscapeName_c_str.
  rewrite (c_str_nul_free a Ha), (c_str_nul_free b Hb).
  split; apply double_char_injective.
Qed.

Lemma SQLEscape_injective_witness :
  (SQLEscapeLiteral "a'b" = SQLEscapeLiteral "a'b" -> "a'b" = "a'b")
  /\ (SQLEscapeName "a'b" = SQLEscapeName "a'b" -> "a'b" = "a'b").
Proof. apply (SQLEscape_injective "a'b" "a'b"); reflexivity. Defined.

(** ** Further properties of the unescaper *)

Lemma length_c_str (s : string) : String.length (c_str s) <= String.length s.
Proof.
  induction s as [|c s IH]; [apply le_n|].
  rewrite c_str_cons. destruct (Ascii.eqb c NUL); cbn [String.length]; lia.
Qed.

Lemma length_collapse (q : ascii) (s : string) :
  String.length (collapse q s) <= String.length s.
Proof.
  induction s as [|c|c1 c2 s IH2 IH1] using string_ind2.
  - apply le_n.
  - cbn [collapse]. destruct (Ascii.eqb c q); cbn [String.length]; lia.
  - cbn [collapse] in IH1 |- *.
    destruct (Ascii.eqb c1 q).
    + destruct (Ascii.eqb c2 q); cbn [String.length] in *; lia.
    + cbn [String.length] in *. lia.
Qed.

(** X6: [SQLUnescape] never returns a text longer than its argument, and
    for a token that starts with a quote the result is shorter by at least
    that quote. *)
Theorem SQLUnescape_length (token : string) :
  String.length (SQLUnescape token) <= String.length token
  /\ (is_quote (peek token) = true ->
      String.length (SQLUnescape token) < String.length token).
Proof.
  destruct token as [|c body].
  - split; [apply le_n | intros H; discriminate H].
  - cbn [peek]. destruct (is_quote c) eqn:Hq.
    + rewrite (SQLUnescape_quoted c body Hq).
      pose proof (length_collapse c (c_str body)).
      pose proof (length_c_str body).
      cbn [String.length]. split; [|intros _]; lia.
    + rewrite SQLUnescape_bare by exact Hq.
      pose proof (length_c_str (String c body)) as HL.
      split; [exact HL | intros H; discriminate H].
Qed.

Lemma SQLUnescape_length_witness :
  String.length (SQLUnescape "'it''s'") < String.length "'it''s'".
Proof. apply (proj2 (SQLUnescape_length "'it''s'")). reflexivity. Defined.

(** X7: [SQLUnescape] stops at the closing quote: whatever follows a
    quoted, escaped text, provided it does not start with the same quote
    character, has no influence on the result. *)
Theorem SQLUnescape_ignores_trailing (q : ascii) (s rest : string) :
  is_quote q = true -> nul_free s = true -> peek rest <> q ->
  SQLUnescape (String q (double_char q s ++ String q rest)) = s.
Proof.
  intros Hq Hs Hr.
  rewrite SQLUnescape_quoted by exact Hq.
  rewrite c_str_append by now rewrite nul_free_double_char.
  rewrite c_str_cons.
  destruct (Ascii.eqb_spec q NUL) as [E|E];
    [exfalso; exact (is_quote_not_nul q Hq E)|].
  rewrite collapse_double_char.
  rewrite collapse_cons_close by now rewrite peek_c_str.
  apply append_nil_r.
Qed.

Lemma SQLUnescape_ignores_trailing_witness :
  SQLUnescape (String SQUOTE (double_char SQUOTE "it's" ++ String SQUOTE ", 'b')"))
  = "it's".
Proof.
  apply (SQLUnescape_ignores_trailing SQUOTE "it's" ", 'b')");
    [reflexivity | reflexivity | discriminate].
Defined.

(** ** Further properties of the tokenizer *)

(** *** Single iterations *)

Lemma is_quote_eqb (c q : ascii) :
  is_quote c = false -> is_quote q = true -> Ascii.eqb c q = false.
Proof.
  intros Hc Hq. destruct (Ascii.eqb_spec c q) as [->|]; [congruence|reflexivity].
Qed.

(** The character after the current one matters only when it is a quote. *)
Lemma scan_step_next (st : scan_state) (c n1 n2 : ascii) :
  is_quote n1 = false -> is_quote n2 = false ->
  scan_step st c n1 = scan_step st c n2.
Proof.
  intros H1 H2. unfold scan_step.
  destruct (Ascii.eqb c SPACE && negb (bInQuote st)); [reflexivity|].
  destruct (is_punct c && negb (bInQuote st)); [reflexivity|].
  rewrite is_quote_comm. destruct (is_quote c) eqn:Hc; [|reflexivity].
  destruct (bInQuote st); [|reflexivity]. cbn [andb].
  destruct (Ascii.eqb_spec c (chQuoteChar st)) as [E|E]; [|reflexivity].
  rewrite <- E. now rewrite (is_quote_eqb n1 c H1 Hc), (is_quote_eqb n2 c H2 Hc).
Qed.

(** Two characters are consumed only in front of a quote. *)
Lemma scan_step_ByTwo (st st' : scan_state) (c next : ascii) :
  scan_step st c next = (st', ByTwo) -> is_quote next = true.
Proof.
  unfold scan_step, flush_unless_space.
  destruct (Ascii.eqb c SPACE && negb (bInQuote st)).
  { destruct (negb (bInSpace st)); discriminate. }
  destruct (is_punct c && negb (bInQuote st)).
  { destruct (negb (bInSpace st)); discriminate. }
  rewrite is_quote_comm. destruct (is_quote c) eqn:Hc; [|discriminate].
  destruct (bInQuote st); cbn [andb]; [|discriminate].
  destruct (Ascii.eqb_spec c (chQuoteChar st)) as [E|E]; [|discriminate].
  destruct (Ascii.eqb_spec next (chQuoteChar st)) as [E'|E']; [|discriminate].
  intros _. congruence.
Qed.

(** Outside a quoted span a quote character opens one. *)
Lemma scan_step_open (st : scan_state) (q next : ascii) :
  is_quote q = true -> bInQuote st = false ->
  scan_step st q next
  = (mkScan (papszTokens st) true q false (String q ""), ByOne).
Proof.
  intros Hq Hin. destruct (is_quote_not_space q Hq) as [Hsp Hp].
  unfold scan_step. now rewrite Hsp, Hp, Hin, is_quote_comm, Hq.
Qed.

(** Inside a span opened by [q], [q q] is kept and read over. *)
Lemma scan_step_doubled (toks : list string) (q : ascii) (sp : bool)
  (tok : string) :
  is_quote q = true ->
  scan_step (mkScan toks true q sp tok) q q
  = (mkScan toks true q sp (tok ++ String q (String q "")), ByTwo).
Proof.
  intros Hq. unfold scan_step.
  cbn [bInQuote chQuoteChar papszTokens bInSpace osCurrentToken].
  rewrite is_quote_comm, Hq, !andb_false_r, Ascii.eqb_refl. cbn [negb andb].
  unfold push_back. now rewrite append_assoc.
Qed.

(** Inside a span opened by [q], a [q] in front of another character
    closes the span and the token is stored. *)
Lemma scan_step_close (toks : list string) (q next : ascii) (sp : bool)
  (tok : string) :
  is_quote q = true -> next <> q ->
  scan_step (mkScan toks true q sp tok) q next
  = (mkScan (toks ++ [push_back tok q]) false NUL true "", ByOne).
Proof.
  intros Hq Hn. unfold scan_step, CSLAddString.
  cbn [bInQuote chQuoteChar papszTokens bInSpace osCurrentToken].
  rewrite is_quote_comm, Hq, !andb_false_r, Ascii.eqb_refl. cbn [negb andb].
  now destruct (Ascii.eqb_spec next q).
Qed.

(** Inside a span opened by [q], every other character is kept, the
    space, the punctuation and the other quote character included. *)
Lemma scan_step_inside (toks : list string) (q c next : ascii)
  (tok : string) :
  c <> q ->
  scan_step (mkScan toks true q false tok) c next
  = (mkScan toks true q false (push_back tok c), ByOne).
Proof.
  intros Hc. unfold scan_step.
  cbn [bInQuote chQuoteChar papszTokens bInSpace osCurrentToken].
  rewrite !andb_false_r. cbn [negb andb].
  destruct (Ascii.eqb_spec c q); [contradiction|].
  now destruct (Ascii.eqb c DQUOTE || Ascii.eqb c SQUOTE).
Qed.

Lemma ordinary_spec (c : ascii) :
  ordinary c = true ->
  c <> NUL /\ Ascii.eqb c SPACE = false /\ is_punct c = false
  /\ is_quote c = false.
Proof.
  unfold ordinary. rewrite !andb_true_iff, !negb_true_iff.
  intros [[[H1 H2] H3] H4]. repeat split; try assumption.
  now apply Ascii.eqb_neq.
Qed.

(** Outside a quoted span an ordinary character joins the accumulator. *)
Lemma scan_step_ordinary (st : scan_state) (c next : ascii) :
  ordinary c = true -> bInQuote st = false ->
  scan_step st c next
  = (mkScan (papszTokens st) false (chQuoteChar st) false
            (push_back (osCurrentToken st) c), ByOne).
Proof.
  intros Hc Hin. destruct (ordinary_spec c Hc) as (_ & Hsp & Hp & Hq).
  unfold scan_step. now rewrite Hsp, Hp, Hin, is_quote_comm, Hq.
Qed.

(** *** The tokens found so far are carried along *)

Lemma scan_step_prepend (pre : list string) (st : scan_state)
  (c next : ascii) :
  scan_step (prepend_tokens pre st) c next
  = (prepend_tokens pre (fst (scan_step st c next)),
     snd (scan_step st c next)).
Proof.
  destruct st as [toks inq q sp tok].
  unfold scan_step, flush_unless_space, CSLAddString, prepend_tokens.
  cbn [bInQuote chQuoteChar papszTokens bInSpace osCurrentToken].
  destruct (Ascii.eqb c SPACE), (is_punct c),
    (Ascii.eqb c DQUOTE || Ascii.eqb c SQUOTE), inq, sp,
    (Ascii.eqb c q), (Ascii.eqb next q);
    cbn [negb andb fst snd papszTokens bInQuote chQuoteChar bInSpace
         osCurrentToken];
    rewrite ?app_assoc; reflexivity.
Qed.

Lemma scan_loop_prepend (pre : list string) (p : string) :
  forall st,
    scan_loop (prepend_tokens pre st) p = prepend_tokens pre (scan_loop st p).
Proof.
  induction p as [|c|c1 c2 p IH2 IH1] using string_ind2; intros st.
  - reflexivity.
  - rewrite !scan_loop_cons, scan_step_prepend.
    destruct (Ascii.eqb c NUL); [reflexivity|].
    destruct (scan_step st c (peek "")) as [st' [|]]; reflexivity.
  - rewrite !(scan_loop_cons _ c1), scan_step_prepend.
    destruct (Ascii.eqb c1 NUL); [reflexivity|].
    destruct (scan_step st c1 (peek (String c2 p))) as [st' [|]];
      cbn [fst snd]; [apply IH1 | apply IH2].
Qed.

Lemma scan_finish_prepend (pre : list string) (st : scan_state) :
  scan_finish (prepend_tokens pre st) = (pre ++ scan_finish st)%list.
Proof.
  unfold scan_finish, prepend_tokens, CSLAddString.
  cbn [papszTokens osCurrentToken].
  destruct (osCurrentToken st); [reflexivity | now rewrite app_assoc].
Qed.

(** Scanning from a state between tokens that holds the tokens [toks]. *)
Lemma scan_from_gap (toks : list string) (p : string) :
  scan_finish (scan_loop (mkScan toks false NUL true "") p)
  = (toks ++ SQLTokenize p)%list.
Proof.
  replace (mkScan toks false NUL true "")
    with (prepend_tokens toks scan_init)
    by (unfold prepend_tokens, scan_init;
        cbn [papszTokens bInQuote chQuoteChar bInSpace osCurrentToken];
        now rewrite app_nil_r).
  now rewrite scan_loop_prepend, scan_finish_prepend.
Qed.

(** *** Scanning a text in two parts *)

Lemma scan_loop_append (a b : string) :
  nul_free a = true -> is_quote (peek b) = false ->
  forall st, scan_loop st (a ++ b) = scan_loop (scan_loop st a) b.
Proof.
  intros Ha Hb. induction a as [|c|c1 c2 a IH2 IH1] using string_ind2;
    intros st.
  - reflexivity.
  - cbn [append]. rewrite !scan_loop_cons.
    cbn [nul_free] in Ha. destruct (Ascii.eqb c NUL); [discriminate Ha|].
    rewrite (scan_step_next st c (peek b) (peek "") Hb eq_refl).
    destruct (scan_step st c (peek "")) as [st' [|]] eqn:E; [reflexivity|].
    apply scan_step_ByTwo in E. discriminate E.
  - change (String c1 (String c2 a) ++ b)
      with (String c1 (String c2 a ++ b)).
    rewrite !(scan_loop_cons _ c1).
    cbn [nul_free] in Ha. destruct (Ascii.eqb c1 NUL); [discriminate Ha|].
    cbn [negb andb] in Ha.
    change (peek (String c2 a ++ b)) with (peek (String c2 a)).
    destruct (scan_step st c1 (peek (String c2 a))) as [st' [|]].
    + now apply IH1.
    + cbn [append]. apply IH2.
      cbn [nul_free] in Ha. now apply andb_true_iff in Ha.
Qed.

(** *** The kinds of token *)

Lemma is_word_push_back (s : string) (c : ascii) :
  is_word s = true -> ordinary c = true -> is_word (push_back s c) = true.
Proof.
  intros Hs Hc. induction s as [|x s IH]; cbn [push_back append is_word].
  - now rewrite Hc.
  - cbn [is_word] in Hs. apply andb_true_iff in Hs. destruct Hs as [-> Hs].
    now apply IH.
Qed.

Lemma is_word_append (a b : string) :
  is_word (a ++ b) = is_word a && is_word b.
Proof.
  induction a as [|c a IH]; [reflexivity|].
  cbn [append is_word]. now rewrite IH, andb_assoc.
Qed.

Lemma is_word_nul_free (s : string) : is_word s = true -> nul_free s = true.
Proof.
  induction s as [|c s IH]; [reflexivity|].
  cbn [is_word nul_free]. intros H. apply andb_true_iff in H.
  destruct H as [Hc Hs]. destruct (ordinary_spec c Hc) as [Hn _].
  apply Ascii.eqb_neq in Hn. now rewrite Hn, IH.
Qed.

Lemma complete_word (t : string) :
  is_word t = true -> is_empty t = false -> complete_token t = true.
Proof.
  destruct t as [|c r]; [discriminate 2|]. intros H _.
  pose proof H as H'. cbn [is_word] in H'. apply andb_true_iff in H'.
  destruct (ordinary_spec c (proj1 H')) as (_ & _ & Hp & Hq).
  unfold complete_token. now rewrite Hq, Hp.
Qed.

Lemma complete_punct (c : ascii) :
  is_punct c = true -> complete_token (push_back "" c) = true.
Proof.
  intros H. cbn [push_back append complete_token]. rewrite H.
  unfold is_punct in H. rewrite !orb_true_iff in H.
  destruct H as [[H|H]|H]; apply Ascii.eqb_eq in H; subst c; reflexivity.
Qed.

Lemma closes_append (q : ascii) (a b : string) :
  unclosed q a = true -> closes q (a ++ b) = closes q b.
Proof.
  induction a as [|c|c1 c2 a IH2 IH1] using string_ind2.
  - reflexivity.
  - cbn [unclosed append closes]. now destruct (Ascii.eqb c q).
  - change (String c1 (String c2 a) ++ b)
      with (String c1 (String c2 (a ++ b))).
    cbn [unclosed closes]. destruct (Ascii.eqb c1 q).
    + intros H. apply andb_true_iff in H. destruct H as [-> H].
      now rewrite IH2.
    + exact IH1.
Qed.

Lemma complete_quoted (q : ascii) (body : string) :
  is_quote q = true -> unclosed q body = true ->
  complete_token (push_back (String q body) q) = true.
Proof.
  intros Hq Hb. cbn [push_back append complete_token]. rewrite Hq.
  rewrite closes_append by exact Hb. cbn [closes].
  now rewrite Ascii.eqb_refl.
Qed.

Lemma scan_step_kinds (st : scan_state) (c next : ascii) :
  c <> NUL -> scan_wf st = true -> scan_kinds st = true ->
  scan_kinds (fst (scan_step st c next)) = true.
Proof.
  intros Hc Hwf. apply scan_wf_iff in Hwf. revert Hwf.
  unfold scan_kinds. destruct st as [toks inq q sp tok].
  cbn [papszTokens bInQuote chQuoteChar bInSpace osCurrentToken].
  intros (_ & Hs & Hq) Hk. apply andb_true_iff in Hk.
  destruct Hk as [Ht Hk].
  destruct inq.
  - (* inside a quoted span *)
    destruct (Hq eq_refl) as [Hqq [body [-> Hb]]]. cbn [is_empty] in Hs.
    subst sp.
    destruct (Ascii.eqb_spec c q) as [->|Hcq].
    + destruct (Ascii.eqb_spec next q) as [->|Hn].
      * rewrite scan_step_doubled by exact Hqq.
        cbn [fst papszTokens bInQuote]. now rewrite Ht.
      * rewrite scan_step_close by assumption.
        cbn [fst papszTokens bInQuote chQuoteChar osCurrentToken].
        rewrite forallb_snoc, Ht, complete_quoted by assumption.
        reflexivity.
    + rewrite scan_step_inside by exact Hcq.
      cbn [fst papszTokens bInQuote]. now rewrite Ht.
  - (* outside *)
    clear Hq. cbn [orb] in Hk. apply andb_true_iff in Hk.
    destruct Hk as [Hw Hn]. apply Ascii.eqb_eq in Hn. subst q.
    unfold scan_step, flush_unless_space, CSLAddString.
    cbn [papszTokens bInQuote chQuoteChar bInSpace osCurrentToken].
    rewrite !andb_true_r. cbn [negb andb].
    assert (Hflush : forallb complete_token
                       (fst (if negb sp then ((toks ++ [tok])%list, "")
                             else (toks, tok))) = true
                     /\ is_word (snd (if negb sp then ((toks ++ [tok])%list, "")
                                      else (toks, tok))) = true).
    { destruct sp; cbn [negb fst snd]; [now split|].
      split; [|reflexivity].
      rewrite forallb_snoc, Ht. now rewrite complete_word. }
    destruct Hflush as [Hf1 Hf2].
    destruct (Ascii.eqb c SPACE) eqn:Hsp.
    + destruct (if negb sp then ((toks ++ [tok])%list, "") else (toks, tok))
        as [toks' cur'].
      cbn [fst snd papszTokens bInQuote chQuoteChar osCurrentToken] in *.
      now rewrite Hf1, Hf2.
    + destruct (is_punct c) eqn:Hp.
      * destruct (if negb sp then ((toks ++ [tok])%list, "") else (toks, tok))
          as [toks' cur'].
        cbn [fst snd papszTokens bInQuote chQuoteChar osCurrentToken] in *.
        rewrite forallb_snoc, Hf1. now rewrite complete_punct.
      * rewrite is_quote_comm. destruct (is_quote c) eqn:Hcq;
          cbn [fst papszTokens bInQuote chQuoteChar osCurrentToken].
        -- now rewrite Ht.
        -- rewrite Ht. cbn [orb andb].
           rewrite is_word_push_back; [reflexivity | exact Hw |].
           unfold ordinary. rewrite Hsp, Hp, Hcq.
           apply Ascii.eqb_neq in Hc. now rewrite Hc.
Qed.

Lemma scan_loop_kinds (p : string) :
  scan_wf (scan_loop scan_init p) = true
  /\ scan_kinds (scan_loop scan_init p) = true.
Proof.
  apply (scan_loop_invariant
           (fun st => scan_wf st = true /\ scan_kinds st = true)).
  - intros st c next Hc [Hw Hk]. split.
    + now apply scan_step_wf.
    + now apply scan_step_kinds.
  - split; reflexivity.
Qed.

Lemma forallb_token_ok (l : list string) :
  forallb complete_token l = true -> forallb token_ok l = true.
Proof.
  rewrite !forallb_forall. intros H t Ht. unfold token_ok.
  now rewrite (H t Ht).
Qed.

(** X8: every token [SQLTokenize] returns is of one of four kinds: a
    quoted span with its closing quote, a single punctuation character, a
    non-empty word free of spaces, punctuation and quotes, or a quoted span
    that was never closed.  The last kind occurs only when the input ends
    inside a quoted span. *)
Theorem SQLTokenize_token_kinds (s : string) :
  forallb token_ok (SQLTokenize s) = true
  /\ (bInQuote (scan_loop scan_init s) = false ->
      forallb complete_token (SQLTokenize s) = true).
Proof.
  destruct (scan_loop_kinds s) as [Hwf Hk].
  apply scan_wf_iff in Hwf. destruct Hwf as (_ & Hs & Hq).
  unfold scan_kinds in Hk. apply andb_true_iff in Hk. destruct Hk as [Ht Hk].
  unfold SQLTokenize, scan_finish, CSLAddString.
  destruct (osCurrentToken (scan_loop scan_init s)) as [|c r] eqn:Etok.
  - split; [now apply forallb_token_ok | intros _; exact Ht].
  - destruct (bInQuote (scan_loop scan_init s)).
    + split; [|discriminate].
      destruct (Hq eq_refl) as [Hqq [body [E Hb]]].
      rewrite forallb_snoc, (forallb_token_ok _ Ht).
      injection E as -> ->. unfold token_ok. cbn [andb].
      rewrite Hqq, Hb. now rewrite orb_true_r.
    + cbn [orb] in Hk. apply andb_true_iff in Hk. destruct Hk as [Hw _].
      assert (Hc : complete_token (String c r) = true)
        by now apply complete_word.
      split; [|intros _]; rewrite forallb_snoc.
      * rewrite (forallb_token_ok _ Ht). unfold token_ok. now rewrite Hc.
      * now rewrite Ht, Hc.
Qed.

Lemma SQLTokenize_token_kinds_witness :
  forallb complete_token (SQLTokenize "f('a b', x)") = true.
Proof.
  apply (proj2 (SQLTokenize_token_kinds "f('a b', x)")). reflexivity.
Defined.

(** *** Token boundaries *)

(** The state after a text that does not end inside a quoted span. *)
Lemma scan_loop_outside (a : string) :
  bInQuote (scan_loop scan_init a) = false ->
  exists toks sp tok,
    scan_loop scan_init a = mkScan toks false NUL sp tok
    /\ sp = is_empty tok.
Proof.
  intros Hin. destruct (scan_loop_kinds a) as [Hwf Hk].
  apply scan_wf_iff in Hwf. destruct Hwf as (_ & Hs & _).
  unfold scan_kinds in Hk. apply andb_true_iff in Hk. destruct Hk as [_ Hk].
  destruct (scan_loop scan_init a) as [toks inq q sp tok].
  cbn [bInQuote chQuoteChar bInSpace osCurrentToken] in *. subst inq.
  cbn [orb] in Hk. apply andb_true_iff in Hk. destruct Hk as [_ Hn].
  apply Ascii.eqb_eq in Hn. subst q. now exists toks, sp, tok.
Qed.

Lemma SQLTokenize_split_space (a b : string) :
  nul_free a = true -> bInQuote (scan_loop scan_init a) = false ->
  SQLTokenize (a ++ String SPACE b) = (SQLTokenize a ++ SQLTokenize b)%list.
Proof.
  intros Ha Hin. unfold SQLTokenize at 1 2.
  rewrite scan_loop_append by (exact Ha || reflexivity).
  destruct (scan_loop_outside a Hin) as (toks & sp & tok & -> & ->).
  rewrite scan_loop_cons. change (Ascii.eqb SPACE NUL) with false. cbv iota.
  unfold scan_step, flush_unless_space, CSLAddString, scan_finish at 2.
  cbn [papszTokens bInQuote chQuoteChar bInSpace osCurrentToken].
  rewrite Ascii.eqb_refl. cbn [negb andb].
  destruct tok as [|c r]; cbn [is_empty negb]; apply scan_from_gap.
Qed.

Lemma SQLTokenize_split_punct (a b : string) (c : ascii) :
  is_punct c = true ->
  nul_free a = true -> bInQuote (scan_loop scan_init a) = false ->
  SQLTokenize (a ++ String c b)
  = (SQLTokenize a ++ char_token c :: SQLTokenize b)%list.
Proof.
  intros Hc Ha Hin. unfold SQLTokenize at 1 2.
  destruct (is_punct_not_space c Hc) as [Hsp Hn].
  assert (Hq : is_quote c = false).
  { unfold is_punct in Hc. rewrite !orb_true_iff in Hc.
    destruct Hc as [[H|H]|H]; apply Ascii.eqb_eq in H; subst c;
      reflexivity. }
  rewrite scan_loop_append by (exact Ha || exact Hq).
  destruct (scan_loop_outside a Hin) as (toks & sp & tok & -> & ->).
  rewrite scan_loop_cons.
  destruct (Ascii.eqb_spec c NUL); [contradiction|].
  unfold scan_step, flush_unless_space, CSLAddString, scan_finish at 2.
  cbn [papszTokens bInQuote chQuoteChar bInSpace osCurrentToken].
  rewrite Hsp, Hc. cbn [negb andb push_back append].
  destruct tok as [|x r]; cbn [is_empty negb]; rewrite scan_from_gap;
    unfold char_token; now rewrite <- app_assoc.
Qed.

(** X9: outside a quoted span, a space or a punctuation character is a
    token boundary: the tokens of the whole text are the tokens of the part
    before it, the punctuation character itself if it is one, and the
    tokens of the part after it. *)
Theorem SQLTokenize_boundary (a b : string) (c : ascii) :
  nul_free a = true -> bInQuote (scan_loop scan_init a) = false ->
  (c = SPACE ->
   SQLTokenize (a ++ String c b) = (SQLTokenize a ++ SQLTokenize b)%list)
  /\ (is_punct c = true ->
      SQLTokenize (a ++ String c b)
      = (SQLTokenize a ++ char_token c :: SQLTokenize b)%list).
Proof.
  intros Ha Hin. split.
  - intros ->. now apply SQLTokenize_split_space.
  - intros Hc. now apply SQLTokenize_split_punct.
Qed.

Lemma SQLTokenize_boundary_witness :
  SQLTokenize ("'a b' c" ++ String SPACE "d, e")
  = (SQLTokenize "'a b' c" ++ SQLTokenize "d, e")%list
  /\ SQLTokenize ("f" ++ String LPAREN "x)")
     = (SQLTokenize "f" ++ char_token LPAREN :: SQLTokenize "x)")%list.
Proof.
  split.
  - apply (proj1 (SQLTokenize_boundary "'a b' c" "d, e" SPACE
                    eq_refl eq_refl)).
    reflexivity.
  - apply (proj2 (SQLTokenize_boundary "f" "x)" LPAREN eq_refl eq_refl)).
    reflexivity.
Defined.

(** *** Words *)

Lemma scan_loop_word (w : string) :
  is_word w = true ->
  forall toks q sp tok,
    scan_loop (mkScan toks false q sp tok) w
    = mkScan toks false q (sp && is_empty w) (tok ++ w).
Proof.
  induction w as [|c w IH]; intros Hw toks q sp tok.
  - cbn [scan_loop is_empty]. now rewrite andb_true_r, append_nil_r.
  - cbn [is_word] in Hw. apply andb_true_iff in Hw. destruct Hw as [Hc Hw].
    destruct (ordinary_spec c Hc) as (Hn & _).
    rewrite scan_loop_cons. destruct (Ascii.eqb_spec c NUL); [contradiction|].
    rewrite scan_step_ordinary by (exact Hc || reflexivity).
    cbn [papszTokens chQuoteChar osCurrentToken].
    rewrite (IH Hw). cbn [is_empty andb]. rewrite andb_false_r.
    unfold push_back. now rewrite append_assoc.
Qed.

Lemma SQLTokenize_word (w : string) :
  is_word w = true -> is_empty w = false ->
  SQLTokenize w = [w] /\ bInQuote (scan_loop scan_init w) = false.
Proof.
  intros Hw He. unfold SQLTokenize, scan_init.
  rewrite (scan_loop_word w Hw). split; [|reflexivity].
  unfold scan_finish. cbn [osCurrentToken papszTokens append].
  destruct w; [discriminate He | reflexivity].
Qed.

(** X10: on words separated by single spaces the tokenizer is the
    inverse of joining: the tokens of the joined text are the words. *)
Theorem SQLTokenize_words (ws : list string) :
  forallb (fun w => is_word w && negb (is_empty w)) ws = true ->
  SQLTokenize (String.concat (String SPACE "") ws) = ws.
Proof.
  induction ws as [|w ws IH]; [reflexivity|].
  cbn [forallb]. rewrite !andb_true_iff, negb_true_iff.
  intros [[Hw He] Hws].
  destruct (SQLTokenize_word w Hw He) as [Htok Hin].
  destruct ws as [|w' ws]; [exact Htok|].
  change (String.concat (String SPACE "") (w :: w' :: ws))
    with (w ++ String SPACE (String.concat (String SPACE "") (w' :: ws))).
  rewrite SQLTokenize_split_space by (now apply is_word_nul_free || exact Hin).
  now rewrite Htok, (IH Hws).
Qed.

Lemma SQLTokenize_words_witness :
  SQLTokenize (String.concat (String SPACE "") ["SELECT"; "*"; "FROM"; "t"])
  = ["SELECT"; "*"; "FROM"; "t"].
Proof.
  apply (SQLTokenize_words ["SELECT"; "*"; "FROM"; "t"]). reflexivity.
Defined.

(** *** Quoted literals and identifiers *)

Lemma scan_quoted_body (q : ascii) (s : string) :
  is_quote q = true -> nul_free s = true ->
  forall toks tok tail,
    scan_loop (mkScan toks true q false tok) (double_char q s ++ tail)
    = scan_loop (mkScan toks true q false (tok ++ double_char q s)) tail.
Proof.
  intros Hq. induction s as [|c s IH]; intros Hs toks tok tail.
  - cbn [double_char append]. now rewrite append_nil_r.
  - cbn [nul_free] in Hs. apply andb_true_iff in Hs. destruct Hs as [Hc Hs].
    apply negb_true_iff in Hc.
    cbn [double_char]. destruct (Ascii.eqb_spec c q) as [->|Hcq].
    + change (String q (String q (double_char q s)) ++ tail)
        with (String q (String q (double_char q s ++ tail))).
      rewrite scan_loop_cons, Hc. cbn [peek].
      rewrite scan_step_doubled by exact Hq.
      rewrite (IH Hs). now rewrite append_assoc.
    + change (String c (double_char q s) ++ tail)
        with (String c (double_char q s ++ tail)).
      rewrite scan_loop_cons, Hc.
      rewrite scan_step_inside by exact Hcq.
      rewrite (IH Hs). unfold push_back. now rewrite append_assoc.
Qed.

Lemma SQLTokenize_quoted (q : ascii) (s b : string) :
  is_quote q = true -> nul_free s = true -> peek b <> q ->
  SQLTokenize (String q (double_char q s ++ String q b))
  = quoted q s :: SQLTokenize b.
Proof.
  intros Hq Hs Hb. unfold SQLTokenize at 1.
  pose proof (is_quote_not_nul q Hq) as Hn. apply Ascii.eqb_neq in Hn.
  rewrite scan_loop_cons, Hn.
  rewrite scan_step_open by (exact Hq || reflexivity).
  cbn [papszTokens scan_init].
  rewrite scan_quoted_body by assumption.
  rewrite scan_loop_cons, Hn.
  rewrite scan_step_close by assumption.
  rewrite scan_from_gap. reflexivity.
Qed.

(** X11: a literal escaped by [SQLEscapeLiteral] and put between single
    quotes is read back by [SQLTokenize] as exactly one token, whatever
    spaces, commas, parentheses or quotes it holds, and the scan goes on
    behind it as from the start.  The same holds for [SQLEscapeName] and
    double quotes. *)
Theorem SQLTokenize_escaped_is_one_token (s b : string) :
  nul_free s = true ->
  (peek b <> SQUOTE ->
   SQLTokenize (String SQUOTE (SQLEscapeLiteral s ++ String SQUOTE b))
   = String SQUOTE (SQLEscapeLiteral s ++ String SQUOTE "") :: SQLTokenize b)
  /\ (peek b <> DQUOTE ->
      SQLTokenize (String DQUOTE (SQLEscapeName s ++ String DQUOTE b))
      = String DQUOTE (SQLEscapeName s ++ String DQUOTE "") :: SQLTokenize b).
Proof.
  intros Hs.
  rewrite SQLEscapeLiteral_c_str, SQLEscapeName_c_str, (c_str_nul_free s Hs).
  split; intros Hb; now apply SQLTokenize_quoted.
Qed.

Lemma SQLTokenize_escaped_is_one_token_witness :
  SQLTokenize (String SQUOTE (SQLEscapeLiteral "it's (a, b)"
                              ++ String SQUOTE ", 2)"))
  = String SQUOTE (SQLEscapeLiteral "it's (a, b)" ++ String SQUOTE "")
    :: SQLTokenize ", 2)".
Proof.
  apply (proj1 (SQLTokenize_escaped_is_one_token "it's (a, b)" ", 2)"
                  eq_refl)).
  discriminate.
Defined.

(** ** SQLResultGetValue *)

Lemma wrap_int_small (z : Z) :
  (INT_MIN <= z <= INT_MAX)%Z -> wrap_int z = z.
Proof.
  unfold INT_MIN, INT_MAX, wrap_int. intros H.
  rewrite Z.mod_small; lia.
Qed.

Lemma SQLResultGetValue_index_exact (r : SQLResult) (iCol iRow : Z) :
  (0 <= iCol < nColCount r)%Z -> (0 <= iRow < nRowCount r)%Z ->
  ((nRowCount r + 1) * nColCount r <= INT_MAX)%Z ->
  SQLResultGetValue_index r iCol iRow
  = (nColCount r + iRow * nColCount r + iCol)%Z.
Proof.
  intros Hc Hr Hmax. unfold SQLResultGetValue_index. cbv zeta.
  assert (H1 : (0 <= iRow * nColCount r)%Z) by nia.
  assert (H2 : (iRow * nColCount r + nColCount r
                <= (nRowCount r + 1) * nColCount r - nColCount r)%Z) by nia.
  unfold INT_MAX in Hmax.
  rewrite (wrap_int_small (iRow * nColCount r)) by (unfold INT_MIN, INT_MAX; lia).
  rewrite (wrap_int_small (nColCount r + iRow * nColCount r))
    by (unfold INT_MIN, INT_MAX; lia).
  apply wrap_int_small. unfold INT_MIN, INT_MAX. lia.
Qed.

(** X12: for a column and a row within the counts of the result, the
    subscript [SQLResultGetValue] reads at lies behind the first [nCols]
    entries (the row of column names) and inside the
    [(nRows + 1) * nCols] entries of the table, and two different cells
    are read at two different subscripts. *)
Theorem SQLResultGetValue_index_bounds (r : SQLResult)
  (iCol iRow iCol' iRow' : Z) :
  (0 <= iCol < nColCount r)%Z -> (0 <= iRow < nRowCount r)%Z ->
  (0 <= iCol' < nColCount r)%Z -> (0 <= iRow' < nRowCount r)%Z ->
  ((nRowCount r + 1) * nColCount r <= INT_MAX)%Z ->
  (nColCount r <= SQLResultGetValue_index r iCol iRow
   < (nRowCount r + 1) * nColCount r)%Z
  /\ (SQLResultGetValue_index r iCol iRow
      = SQLResultGetValue_index r iCol' iRow' ->
      iCol = iCol' /\ iRow = iRow').
Proof.
  intros Hc Hr Hc' Hr' Hmax.
  rewrite !SQLResultGetValue_index_exact by assumption.
  split; [nia|]. intros E.
  assert (iRow = iRow') by nia. subst iRow'. split; [lia | reflexivity].
Qed.

Lemma SQLResultGetValue_index_bounds_witness :
  (3 <= SQLResultGetValue_index (mkSQLResult [] None 2 3 0) 1 1
   < (2 + 1) * 3)%Z.
Proof.
  apply (proj1 (SQLResultGetValue_index_bounds (mkSQLResult [] None 2 3 0)
                  1 1 1 1 ltac:(cbn; lia) ltac:(cbn; lia)
                  ltac:(cbn; lia) ltac:(cbn; lia)
                  ltac:(cbn; unfold INT_MAX; lia))).
Defined.

Lemma nth_error_concat_rows {A : Type} (n : nat) (rows : list (list A)) :
  Forall (fun row => List.length row = n) rows ->
  forall i j row,
    nth_error rows i = Some row -> j < n ->
    nth_error (List.concat rows) (i * n + j) = nth_error row j.
Proof.
  induction 1 as [|r0 rows Hr0 _ IH]; intros i j row Hi Hj.
  - destruct i; discriminate Hi.
  - destruct i as [|i]; cbn [nth_error] in Hi; cbn [List.concat].
    + injection Hi as ->. cbn [Nat.mul Nat.add].
      apply nth_error_app1. lia.
    + rewrite nth_error_app2 by lia.
      replace (S i * n + j - List.length r0) with (i * n + j) by lia.
      now apply IH.
Qed.

(** X13: when the array holds the row of column names followed by the
    data rows, each of [nCols] entries, [SQLResultGetValue] returns the
    entry of column [iColNum] in data row [iRowNum]; it never returns a
    column name. *)
Theorem SQLResultGetValue_cell (r : SQLResult)
  (header : list (option string)) (rows : list (list (option string)))
  (iCol iRow : Z) (row : list (option string)) :
  papszResult r = (header ++ List.concat rows)%list ->
  Z.of_nat (List.length header) = nColCount r ->
  Forall (fun row => Z.of_nat (List.length row) = nColCount r) rows ->
  Z.of_nat (List.length rows) = nRowCount r ->
  ((nRowCount r + 1) * nColCount r <= INT_MAX)%Z ->
  (0 <= iCol < nColCount r)%Z -> (0 <= iRow < nRowCount r)%Z ->
  nth_error rows (Z.to_nat iRow) = Some row ->
  SQLResultGetValue r iCol iRow = nth_error row (Z.to_nat iCol).
Proof.
  intros Hp Hh Hrows Hn Hmax Hc Hr Hrow.
  unfold SQLResultGetValue. cbv zeta.
  rewrite SQLResultGetValue_index_exact by assumption.
  assert (Hi : (0 <= nColCount r + iRow * nColCount r + iCol)%Z) by nia.
  destruct (Z.ltb_spec (nColCount r + iRow * nColCount r + iCol) 0);
    [lia|].
  rewrite Hp.
  set (n := List.length header) in *.
  assert (En : nColCount r = Z.of_nat n) by lia.
  replace (Z.to_nat (nColCount r + iRow * nColCount r + iCol))
    with (n + (Z.to_nat iRow * n + Z.to_nat iCol)) by (rewrite En; nia).
  rewrite nth_error_app2 by (fold n; lia). fold n.
  replace (n + (Z.to_nat iRow * n + Z.to_nat iCol) - n)
    with (Z.to_nat iRow * n + Z.to_nat iCol) by lia.
  apply nth_error_concat_rows; [|exact Hrow|lia].
  eapply Forall_impl; [|exact Hrows]. cbn. intros a Ha. lia.
Qed.

Lemma SQLResultGetValue_cell_witness :
  SQLResultGetValue
    (mkSQLResult [Some "id"; Some "name"; Some "1"; Some "a"; Some "2"; None]
                 None 2 2 0) 1 1
  = nth_error [Some "2"; None] (Z.to_nat 1).
Proof.
  apply (SQLResultGetValue_cell
           (mkSQLResult [Some "id"; Some "name"; Some "1"; Some "a";
                         Some "2"; None] None 2 2 0)
           [Some "id"; Some "name"]
           [[Some "1"; Some "a"]; [Some "2"; None]] 1 1 [Some "2"; None]);
    try reflexivity; try (cbn; unfold INT_MAX; lia).
  repeat constructor.
Defined.

(** ** SQLGetInteger64 and SQLGetInteger *)

Lemma wrap_int_range (z : Z) : (INT_MIN <= wrap_int z <= INT_MAX)%Z.
Proof.
  unfold INT_MIN, INT_MAX, wrap_int.
  pose proof (Z.mod_pos_bound (z + 2 ^ 31) (2 ^ 32) ltac:(lia)). lia.
Qed.

Lemma wrap_int_congruent (z : Z) : ((wrap_int z - z) mod 2 ^ 32 = 0)%Z.
Proof.
  unfold wrap_int.
  rewrite (Z.mod_eq (z + 2 ^ 31) (2 ^ 32)) by lia.
  replace (z + 2 ^ 31 - 2 ^ 32 * ((z + 2 ^ 31) / 2 ^ 32) - 2 ^ 31 - z)%Z
    with ((- ((z + 2 ^ 31) / 2 ^ 32)) * 2 ^ 32)%Z by ring.
  apply Z.mod_mul. lia.
Qed.

(** X15: [SQLGetInteger] makes the same calls and reports the same error
    code as [SQLGetInteger64]; its value is that of [SQLGetInteger64]
    reduced to 32 bits, so it is the same exactly when that value fits in
    an [int], and a larger one is changed without any error reported. *)
Theorem SQLGetInteger_truncates (db : sqlite_answers)
  (i : Z) (err : OGRErr) (calls : list sqlite_call) :
  SQLGetInteger64 db = (i, err, calls) ->
  exists i32 : Z,
    SQLGetInteger db = (i32, err, calls)
    /\ (INT_MIN <= i32 <= INT_MAX)%Z
    /\ ((i32 - i) mod 2 ^ 32 = 0)%Z
    /\ (i32 = i <-> (INT_MIN <= i <= INT_MAX)%Z).
Proof.
  intros H. exists (wrap_int i). unfold SQLGetInteger. rewrite H.
  split; [reflexivity|].
  split; [apply wrap_int_range|].
  split; [apply wrap_int_congruent|].
  split.
  - intros E. rewrite <- E. apply wrap_int_range.
  - apply wrap_int_small.
Qed.

Lemma SQLGetInteger_truncates_witness :
  exists i32 : Z,
    SQLGetInteger (mkAnswers 0 100 0 100 (2 ^ 32 + 5))
    = (i32, OGRERR_NONE,
       [sqlite3_prepare_v2; sqlite3_step; sqlite3_column_int64;
        sqlite3_finalize])
    /\ (INT_MIN <= i32 <= INT_MAX)%Z
    /\ ((i32 - (2 ^ 32 + 5)) mod 2 ^ 32 = 0)%Z
    /\ (i32 = (2 ^ 32 + 5)%Z <-> (INT_MIN <= 2 ^ 32 + 5 <= INT_MAX)%Z).
Proof.
  apply (SQLGetInteger_truncates (mkAnswers 0 100 0 100 (2 ^ 32 + 5))).
  reflexivity.
Defined.

(** ** From a quoted token back to its text and again to the token *)

Lemma nul_free_push_back (s : string) (c : ascii) :
  nul_free s = true -> c <> NUL -> nul_free (push_back s c) = true.
Proof.
  intros Hs Hc. unfold push_back. rewrite nul_free_append, Hs.
  apply Ascii.eqb_neq in Hc. cbn [nul_free andb]. now rewrite Hc.
Qed.

Lemma scan_step_nul_free (st : scan_state) (c next : ascii) :
  c <> NUL -> scan_nul_free st = true ->
  scan_nul_free (fst (scan_step st c next)) = true.
Proof.
  intros Hc. unfold scan_nul_free. destruct st as [toks inq q sp tok].
  cbn [papszTokens osCurrentToken]. intros H. apply andb_true_iff in H.
  destruct H as [Ht Hk].
  pose proof (nul_free_push_back tok c Hk Hc) as H1.
  pose proof (nul_free_push_back (push_back tok c) c H1 Hc) as H2.
  pose proof (nul_free_push_back "" c eq_refl Hc) as H3.
  unfold scan_step, flush_unless_space, CSLAddString.
  cbn [bInQuote chQuoteChar papszTokens bInSpace osCurrentToken].
  destruct (Ascii.eqb c SPACE), (is_punct c),
    (Ascii.eqb c DQUOTE || Ascii.eqb c SQUOTE), inq, sp,
    (Ascii.eqb c q), (Ascii.eqb next q);
    cbn [negb andb fst snd papszTokens osCurrentToken];
    rewrite ?forallb_snoc, ?Ht, ?Hk, ?H1, ?H2, ?H3; reflexivity.
Qed.

Lemma SQLTokenize_nul_free (s t : string) :
  In t (SQLTokenize s) -> nul_free t = true.
Proof.
  assert (H : scan_nul_free (scan_loop scan_init s) = true).
  { apply (scan_loop_invariant (fun st => scan_nul_free st = true)).
    - intros st c next Hc. now apply scan_step_nul_free.
    - reflexivity. }
  unfold scan_nul_free in H. apply andb_true_iff in H. destruct H as [Ht Hk].
  rewrite forallb_forall in Ht.
  unfold SQLTokenize, scan_finish, CSLAddString.
  destruct (osCurrentToken (scan_loop scan_init s)) as [|c r].
  - apply Ht.
  - intros Hin. apply in_app_or in Hin. destruct Hin as [Hin|[<-|[]]].
    + now apply Ht.
    + exact Hk.
Qed.

Lemma nul_free_collapse (q : ascii) (r : string) :
  nul_free r = true -> nul_free (collapse q r) = true.
Proof.
  induction r as [|c|c1 c2 r IH2 IH1] using string_ind2.
  - reflexivity.
  - cbn [collapse]. now destruct (Ascii.eqb c q).
  - intros H. pose proof H as H'. cbn [nul_free] in H'.
    apply andb_true_iff in H'. destruct H' as [Hc1 H'].
    apply andb_true_iff in H'. destruct H' as [Hc2 Hr].
    destruct (Ascii.eqb_spec c1 q) as [->|Hne].
    + destruct (Ascii.eqb_spec c2 q) as [->|Hne2].
      * rewrite collapse_cons_pair. cbn [nul_free]. now rewrite Hc1, IH2.
      * now rewrite collapse_cons_close.
    + rewrite collapse_cons_other by exact Hne. cbn [nul_free].
      rewrite Hc1. cbn [andb]. apply IH1. cbn [nul_free].
      now rewrite Hc2, Hr.
Qed.

Lemma double_char_collapse_closes (q : ascii) (r : string) :
  closes q r = true -> double_char q (collapse q r) ++ String q "" = r.
Proof.
  induction r as [|c|c1 c2 r IH2 IH1] using string_ind2.
  - discriminate.
  - cbn [closes collapse]. destruct (Ascii.eqb_spec c q) as [->|];
      [reflexivity | discriminate].
  - cbn [closes]. destruct (Ascii.eqb_spec c1 q) as [->|Hne].
    + intros H. apply andb_true_iff in H. destruct H as [Hc Hr].
      apply Ascii.eqb_eq in Hc. subst c2.
      rewrite collapse_cons_pair. cbn [double_char].
      rewrite Ascii.eqb_refl. cbn [append]. now rewrite IH2.
    + intros H. rewrite collapse_cons_other by exact Hne.
      cbn [double_char]. destruct (Ascii.eqb_spec c1 q); [contradiction|].
      cbn [append]. now rewrite IH1.
Qed.

Lemma requote (q : ascii) (r : string) :
  is_quote q = true -> nul_free r = true -> closes q r = true ->
  String q (double_char q (SQLUnescape (String q r)) ++ String q "")
  = String q r.
Proof.
  intros Hq Hr Hc.
  rewrite SQLUnescape_quoted, (c_str_nul_free r Hr) by exact Hq.
  now rewrite double_char_collapse_closes.
Qed.

(** X16: a quoted token with its closing quote, as [SQLTokenize] returns
    it, is in escaped form already: unescaping it with [SQLUnescape],
    escaping the result again with [SQLEscapeLiteral] (for a token in
    single quotes) or [SQLEscapeName] (in double quotes) and putting the
    quotes back gives the token itself. *)
Theorem SQLTokenize_token_requoted (s t : string) :
  In t (SQLTokenize s) -> complete_token t = true ->
  (peek t = SQUOTE ->
   String SQUOTE (SQLEscapeLiteral (SQLUnescape t) ++ String SQUOTE "") = t)
  /\ (peek t = DQUOTE ->
      String DQUOTE (SQLEscapeName (SQLUnescape t) ++ String DQUOTE "") = t).
Proof.
  intros Hin Hc. pose proof (SQLTokenize_nul_free s t Hin) as Hnf.
  destruct t as [|q r]; [discriminate Hc|].
  cbn [peek nul_free] in *. apply andb_true_iff in Hnf.
  destruct Hnf as [_ Hr].
  assert (Hu : is_quote q = true ->
               nul_free (SQLUnescape (String q r)) = true).
  { intros Hq. rewrite SQLUnescape_quoted, (c_str_nul_free r Hr) by exact Hq.
    now apply nul_free_collapse. }
  split; intros ->.
  - rewrite SQLEscapeLiteral_c_str, c_str_nul_free by now apply Hu.
    now apply requote.
  - rewrite SQLEscapeName_c_str, c_str_nul_free by now apply Hu.
    now apply requote.
Qed.

Lemma SQLTokenize_token_requoted_witness :
  String SQUOTE (SQLEscapeLiteral (SQLUnescape "'it''s'") ++ String SQUOTE "")
  = "'it''s'".
Proof.
  apply (proj1 (SQLTokenize_token_requoted "x = 'it''s' ," "'it''s'"
                  ltac:(vm_compute; right; right; left; reflexivity)
                  eq_refl)).
  reflexivity.
Defined.

(** ** An input that ends inside a quoted span *)

Lemma scan_loop_c_str (p : string) :
  forall st, scan_loop st p = scan_loop st (c_str p).
Proof.
  induction p as [|c|c1 c2 p IH2 IH1] using string_ind2; intros st.
  - reflexivity.
  - rewrite c_str_cons. destruct (Ascii.eqb c NUL) eqn:E; [|reflexivity].
    now rewrite scan_loop_cons, E.
  - rewrite (c_str_cons c1).
    destruct (Ascii.eqb c1 NUL) eqn:E1; [now rewrite scan_loop_cons, E1|].
    rewrite !(scan_loop_cons _ c1), E1, peek_c_str.
    destruct (scan_step st c1 (peek (String c2 p))) as [st' [|]] eqn:Es.
    + apply IH1.
    + apply scan_step_ByTwo in Es. cbn [peek] in Es.
      rewrite c_str_cons.
      destruct (Ascii.eqb_spec c2 NUL) as [->|]; [discriminate Es|].
      apply IH2.
Qed.

Lemma scan_wf_inside (st : scan_state) :
  scan_wf st = true -> bInQuote st = true ->
  exists toks q body,
    st = mkScan toks true q false (String q body)
    /\ is_quote q = true /\ unclosed q body = true.
Proof.
  intros Hwf Hin. apply scan_wf_iff in Hwf.
  destruct st as [toks inq q sp tok].
  cbn [papszTokens bInQuote chQuoteChar bInSpace osCurrentToken] in *.
  destruct Hwf as (_ & Hs & Hq). subst inq.
  destruct (Hq eq_refl) as [Hqq [body [-> Hb]]]. cbn [is_empty] in Hs.
  subst sp. now exists toks, q, body.
Qed.

(** Outside a quoted span a character other than a quote leaves the
    scanner outside, whatever follows it. *)
Lemma scan_step_plain (st : scan_state) (c n : ascii) :
  bInQuote st = false -> is_quote c = false ->
  scan_step st c n = (fst (scan_step st c NUL), ByOne)
  /\ bInQuote (fst (scan_step st c NUL)) = false.
Proof.
  intros Hin Hc. unfold scan_step, flush_unless_space.
  rewrite Hin, is_quote_comm, Hc.
  destruct (Ascii.eqb c SPACE), (is_punct c), (bInSpace st);
    cbn [negb andb fst bInQuote]; split; reflexivity.
Qed.

Lemma scan_loop_cons_one (st st' : scan_state) (c : ascii) (y : string) :
  c <> NUL -> scan_step st c (peek y) = (st', ByOne) ->
  scan_loop st (String c y) = scan_loop st' y.
Proof.
  intros Hc Hs. rewrite scan_loop_cons, Hs.
  now destruct (Ascii.eqb_spec c NUL).
Qed.

(** A span that opens behind a first character read on its own. *)
Lemma span_opens_cons (st st' : scan_state) (c : ascii) (x : string) :
  (forall a, a = "" \/ peek a = peek x ->
             scan_loop st (String c a) = scan_loop st' a) ->
  span_opens st' x -> span_opens st (String c x).
Proof.
  intros Hstep (a & q & body & Hx & Ha & Hq & Hb & Hfin).
  assert (Hpa : a = "" \/ peek a = peek x).
  { destruct a as [|c' a]; [now left | right]. now rewrite Hx. }
  exists (String c a), q, body.
  rewrite (Hstep a Hpa), (Hstep x (or_intror eq_refl)).
  repeat split; try assumption. now rewrite Hx.
Qed.

Lemma open_span_split_nil : open_span_split "".
Proof.
  intros st Hwf Hin. left. cbn [scan_loop] in Hin.
  destruct (scan_wf_inside st Hwf Hin) as (toks & q & body & -> & _ & _).
  exists toks, q, (String q body). cbn [scan_loop].
  now rewrite append_nil_r.
Qed.

Lemma open_span_split_cons (c : ascii) (x : string) :
  c <> NUL ->
  open_span_split x ->
  (forall c2 r, x = String c2 r -> open_span_split r) ->
  open_span_split (String c x).
Proof.
  intros Hc Px Pr st Hwf Hfin.
  destruct (bInQuote st) eqn:Hin.
  - (* the scanner is inside a span opened by [q] *)
    destruct (scan_wf_inside st Hwf Hin) as (toks & q & body & -> & Hq & Hb).
    pose proof (is_quote_not_nul q Hq) as Hqn.
    destruct (Ascii.eqb_spec c q) as [->|Hcq].
    + destruct (Ascii.eqb_spec (peek x) q) as [Hx|Hx].
      * (* a doubled quote *)
        destruct x as [|c2 r]; [cbn [peek] in Hx; congruence|].
        cbn [peek] in Hx. subst c2.
        pose proof (scan_step_wf _ q q Hwf) as Hwf'.
        assert (Hgo : forall y, scan_loop (mkScan toks true q false
                                             (String q body))
                                          (String q (String q y))
                                = scan_loop (mkScan toks true q false
                                               (String q body
                                                ++ String q (String q "")))
                                            y).
        { intros y. rewrite scan_loop_cons. cbn [peek].
          rewrite scan_step_doubled by exact Hq.
          now destruct (Ascii.eqb_spec q NUL). }
        rewrite scan_step_doubled in Hwf' by exact Hq. cbn [fst] in Hwf'.
        rewrite Hgo in Hfin.
        destruct (Pr q r eq_refl _ Hwf' Hfin)
          as [(toks' & q' & tok' & E & Hu & Hres)
             |(a & q' & body' & Hr & Ha & Hq' & Hb' & Hres)].
        -- left. injection E as <- <- <-.
           exists toks, q, (String q body). split; [reflexivity|].
           split.
           ++ cbn [unclosed]. now rewrite !Ascii.eqb_refl.
           ++ rewrite Hgo, Hres. cbn [append].
              rewrite append_assoc. reflexivity.
        -- right. exists (String q (String q a)), q', body'.
           rewrite !Hgo. repeat split; try assumption. now rewrite Hr.
      * (* the closing quote *)
        pose proof (scan_step_wf _ q (peek x) Hwf) as Hwf'.
        rewrite scan_step_close in Hwf' by assumption. cbn [fst] in Hwf'.
        assert (Hgo : forall a, a = "" \/ peek a = peek x ->
                  scan_loop (mkScan toks true q false (String q body))
                            (String q a)
                  = scan_loop (mkScan (toks ++ [push_back (String q body) q])
                                      false NUL true "") a).
        { intros a Ha. apply scan_loop_cons_one; [exact Hqn|].
          apply scan_step_close; [exact Hq|].
          destruct Ha as [-> | ->]; [cbn [peek]; congruence | exact Hx]. }
        rewrite (Hgo x (or_intror eq_refl)) in Hfin.
        destruct (Px _ Hwf' Hfin) as [(toks' & q' & tok' & E & _)|Hop].
        -- discriminate E.
        -- right. now apply (span_opens_cons _ _ _ _ Hgo).
    + (* another character inside the span *)
      pose proof (scan_step_wf _ c (peek x) Hwf) as Hwf'.
      rewrite scan_step_inside in Hwf' by exact Hcq. cbn [fst] in Hwf'.
      assert (Hgo : forall a,
                scan_loop (mkScan toks true q false (String q body))
                          (String c a)
                = scan_loop (mkScan toks true q false
                               (push_back (String q body) c)) a).
      { intros a. apply scan_loop_cons_one; [exact Hc|].
        now apply scan_step_inside. }
      rewrite Hgo in Hfin.
      destruct (Px _ Hwf' Hfin)
        as [(toks' & q' & tok' & E & Hu & Hres)|Hop].
      * left. injection E as <- <- <-.
        exists toks, q, (String q body). split; [reflexivity|]. split.
        -- cbn [unclosed]. now destruct (Ascii.eqb_spec c q).
        -- rewrite Hgo, Hres. unfold push_back. cbn [append].
           rewrite append_assoc. reflexivity.
      * right. apply (span_opens_cons _ _ _ _ (fun a _ => Hgo a) Hop).
  - (* the scanner is outside every span *)
    destruct (is_quote c) eqn:Hcq.
    + (* an opening quote *)
      pose proof (scan_step_wf _ c (peek x) Hwf) as Hwf'.
      rewrite scan_step_open in Hwf' by assumption. cbn [fst] in Hwf'.
      assert (Hgo : forall a,
                scan_loop st (String c a)
                = scan_loop (mkScan (papszTokens st) true c false
                               (String c "")) a).
      { intros a. apply scan_loop_cons_one; [exact Hc|].
        now apply scan_step_open. }
      rewrite Hgo in Hfin.
      destruct (Px _ Hwf' Hfin)
        as [(toks' & q' & tok' & E & Hu & Hres)|Hop].
      * right. injection E as <- <- <-.
        exists "", c, x. rewrite Hgo, Hres. cbn [scan_loop append].
        repeat split; try assumption; reflexivity.
      * right. apply (span_opens_cons _ _ _ _ (fun a _ => Hgo a) Hop).
    + (* any other character *)
      destruct (scan_step_plain st c NUL Hin Hcq) as [_ Hout].
      pose proof (scan_step_wf _ c NUL Hwf) as Hwf'.
      assert (Hgo : forall a,
                scan_loop st (String c a)
                = scan_loop (fst (scan_step st c NUL)) a).
      { intros a. apply scan_loop_cons_one; [exact Hc|].
        now apply scan_step_plain. }
      rewrite Hgo in Hfin.
      destruct (Px _ Hwf' Hfin) as [(toks' & q' & tok' & E & _)|Hop].
      * rewrite E in Hout. discriminate Hout.
      * right. apply (span_opens_cons _ _ _ _ (fun a _ => Hgo a) Hop).
Qed.

Lemma open_span_split_all (p : string) :
  nul_free p = true -> open_span_split p.
Proof.
  induction p as [|c|c1 c2 p IH2 IH1] using string_ind2; intros Hp.
  - apply open_span_split_nil.
  - cbn [nul_free] in Hp. apply andb_true_iff in Hp. destruct Hp as [Hc _].
    apply negb_true_iff, Ascii.eqb_neq in Hc.
    apply open_span_split_cons; [exact Hc | apply open_span_split_nil|].
    intros c2 r E. discriminate E.
  - pose proof Hp as Hp1. cbn [nul_free] in Hp1.
    apply andb_true_iff in Hp1. destruct Hp1 as [Hc1 Hp1].
    apply negb_true_iff, Ascii.eqb_neq in Hc1.
    apply open_span_split_cons; [exact Hc1 | now apply IH1 |].
    intros c r E. injection E as <- <-. apply IH2.
    cbn [nul_free] in Hp1. now apply andb_true_iff in Hp1.
Qed.

(** C4: [SQLTokenize] is a total function and has no error result.  When
    the input ends inside a quoted span, the input (up to its terminating
    NUL) is a part [a] after which the scanner is outside every span, the
    quote [q] that opens the span, and a content [body] in which no [q]
    closes the span.  The last token returned is [q] followed by the whole
    of [body], with no closing quote added and nothing dropped, and the
    tokens before it are those stored while reading [a]. *)
Theorem SQLTokenize_unterminated_quote :
  (forall s : string,
      bInQuote (scan_loop scan_init s) = true ->
      exists (a : string) (q : ascii) (body : string),
        c_str s = a ++ String q body
        /\ bInQuote (scan_loop scan_init a) = false
        /\ is_quote q = true
        /\ unclosed q body = true
        /\ chQuoteChar (scan_loop scan_init s) = q
        /\ osCurrentToken (scan_loop scan_init s) = String q body
        /\ papszTokens (scan_loop scan_init s)
           = papszTokens (scan_loop scan_init a)
        /\ SQLTokenize s
           = (papszTokens (scan_loop scan_init a) ++ [String q body])%list)
  /\ SQLTokenize "a 'b c" = ["a"; "'b c"]
  /\ SQLTokenize "x, 'it''s (" = ["x"; ","; "'it''s ("].
Proof.
  split; [|split; reflexivity].
  intros s Hin. unfold SQLTokenize. rewrite (scan_loop_c_str s) in Hin |- *.
  destruct (open_span_split_all (c_str s) (c_str_is_nul_free s) scan_init
              scan_init_wf Hin)
    as [(toks & q & tok & E & _)|(a & q & body & Hs & Ha & Hq & Hb & Hres)].
  - discriminate E.
  - exists a, q, body. rewrite Hres.
    cbn [chQuoteChar osCurrentToken papszTokens scan_finish].
    repeat split; assumption.
Qed.

Lemma SQLTokenize_unterminated_quote_witness :
  exists (a : string) (q : ascii) (body : string),
    c_str "a 'b c''" = a ++ String q body
    /\ bInQuote (scan_loop scan_init a) = false
    /\ is_quote q = true
    /\ unclosed q body = true
    /\ chQuoteChar (scan_loop scan_init "a 'b c''") = q
    /\ osCurrentToken (scan_loop scan_init "a 'b c''") = String q body
    /\ papszTokens (scan_loop scan_init "a 'b c''")
       = papszTokens (scan_loop scan_init a)
    /\ SQLTokenize "a 'b c''"
       = (papszTokens (scan_loop scan_init a) ++ [String q body])%list.
Proof.
  apply (proj1 SQLTokenize_unterminated_quote "a 'b c''"). reflexivity.
Defined.
